(** * coalescifn: the call-coalescing runner [coalesce]

    A shallow embedding of [coalesce] (the runner closure [run] and its
    completion closure [complete]) together with the part of the JavaScript
    host that the closure talks to: the values a task may return, the
    structural test for promises, the reaction registered with
    [.catch(() => {}).finally(complete)], and the later settlement of the
    returned promise. *)

From stdpp Require Import base option list gmap strings.
From Stdlib Require Import ZArith Lia.

Local Open Scope string_scope.
Local Set Warnings "-register-all".

(** ** JavaScript values, as far as [run] inspects them *)

Inductive value : Type :=
| VUndefined
| VNull
| VBool (b : bool)
| VNumber (n : Z)
| VString (s : string)
| VObject (callable : bool) (props : list (string * value)).

(** [typeof v]; note that [typeof null] is ["object"]. *)
Definition typeof (v : value) : string :=
  match v with
  | VUndefined => "undefined"
  | VNull => "object"
  | VBool _ => "boolean"
  | VNumber _ => "number"
  | VString _ => "string"
  | VObject true _ => "function"
  | VObject false _ => "object"
  end.

Fixpoint lookup_prop (name : string) (props : list (string * value)) : value :=
  match props with
  | [] => VUndefined
  | (k, v) :: rest => if String.eqb k name then v else lookup_prop name rest
  end.

(** [v.name] for a value that is neither [null] nor [undefined]; a missing
    property reads as [undefined]. *)
Definition get (v : value) (name : string) : value :=
  match v with
  | VObject _ props => lookup_prop name props
  | _ => VUndefined
  end.

Definition strict_eq_null (v : value) : bool :=
  match v with VNull => true | _ => false end.

(** The test on lines 62-65:
    [result !== null &&
     (typeof result === 'object' || typeof result === 'function') &&
     typeof result.then === 'function']. *)
Definition is_thenable (result : value) : bool :=
  negb (strict_eq_null result)
  && (String.eqb (typeof result) "object" || String.eqb (typeof result) "function")
  && String.eqb (typeof (get result "then")) "function".

(** The first two conjuncts of the test: only for such a value does [run]
    read members of the value, and so run code of the value (getters, the
    methods [catch] and [finally]). *)
Definition is_object (result : value) : bool :=
  negb (strict_eq_null result)
  && (String.eqb (typeof result) "object" || String.eqb (typeof result) "function").

(** Line 67 calls [result.catch(...)]: the call goes through only when the
    member [catch] is callable. *)
Definition has_catch (result : value) : bool :=
  String.eqb (typeof (get result "catch")) "function".

(** What the host throws for [result.catch(...)] when [catch] is not
    callable. *)
Definition type_error : value :=
  VObject false [("name", VString "TypeError");
                 ("message", VString "result.catch is not a function")].

Definition a_function : value := VObject true [].

(** A native promise object. *)
Definition promise : value :=
  VObject false [("then", a_function); ("catch", a_function);
                 ("finally", a_function)].

(** An object that offers [then] and nothing else. *)
Definition bare_thenable : value := VObject false [("then", a_function)].

Local Close Scope string_scope.

(** ** The wrapped function *)

Abbreviation arglist := (list value).

Inductive completion : Type :=
| Throw (error : value)
| Return (result : value).

(** One execution of the wrapped function: the calls it makes to the runner
    while it is executing (each with its argument list), how it ends, and
    what the code of the returned value does when [run] inspects the value
    and subscribes to it on lines 61-67.  [subscribe_error] is the error
    that this code throws, if it throws: a getter of [then] or [catch], the
    call [catch(...)], the value returned by [catch] having no callable
    [finally], or [finally(...)] itself.  With [None] nothing of it throws,
    and a callable [catch] follows the Promise contract: [complete] is
    called once, after the settlement. *)
Record behaviour : Type := Behaviour {
  reentrant : list arglist;
  ending : completion;
  subscribe_error : option value
}.

(** The error thrown while [result] is inspected and subscribed to.  No
    code of the value runs when the value is [null] or not an object. *)
Definition subscribe_throws (b : behaviour) (result : value) : option value :=
  if is_object result then subscribe_error b else None.

(** ** The runner and the host state around it *)

(** An observation of the closure variables, recorded when the wrapped
    function is entered and when [complete] has reset [isRunning]. *)
Inductive obs : Type :=
| Called (args : arglist) (running pending : bool)
| Completed (running pending : bool).

Record world : Type := World {
  isRunning : bool;                 (* line 40 *)
  hasPending : bool;                (* line 41 *)
  ncalls : nat;                     (* executions of [fn] started so far *)
  handlers : gmap nat arglist;      (* [finally(complete)] reactions that wait
                                       for a settlement: execution number, and
                                       the [args] their [complete] closes over *)
  log : list obs
}.

Definition set_isRunning (b : bool) (w : world) : world :=
  World b (hasPending w) (ncalls w) (handlers w) (log w).

Definition set_hasPending (b : bool) (w : world) : world :=
  World (isRunning w) b (ncalls w) (handlers w) (log w).

Definition observe (o : obs) (w : world) : world :=
  World (isRunning w) (hasPending w) (ncalls w) (handlers w) (log w ++ [o]).

Definition enter (args : arglist) (w : world) : world :=
  let w := observe (Called args (isRunning w) (hasPending w)) w in
  World (isRunning w) (hasPending w) (S (ncalls w)) (handlers w) (log w).

Definition register (idx : nat) (args : arglist) (w : world) : world :=
  World (isRunning w) (hasPending w) (ncalls w) (<[idx := args]> (handlers w)) (log w).

Definition unregister (idx : nat) (w : world) : world :=
  World (isRunning w) (hasPending w) (ncalls w) (delete idx (handlers w)) (log w).

(** [coalesce(fn)]: the fresh closure state of lines 40-41. *)
Definition coalesce : world := World false false 0 ∅ [].

(** How a call of [run] (or of [complete]) ends.  [OutOfFuel] stands for a
    chain of nested calls deeper than the bound given to the model. *)
Inductive outcome : Type :=
| Returned
| Raised (error : value)
| OutOfFuel.

(** [catch (error) { complete(); throw error }]: the error is thrown once
    [complete()] has returned; an error thrown by [complete()] itself leaves
    the [catch] block first. *)
Definition rethrow_after (r : world * outcome) (error : value) : world * outcome :=
  match r with
  | (w, Returned) => (w, Raised error)
  | (w, o) => (w, o)
  end.

Section Runner.

(** The wrapped function: its behaviour may depend on how many times it
    has been called before and on the arguments it receives. *)
Variable fn : nat → arglist → behaviour.

(** Lines 51-57, over the [run] it closes over. *)
Definition complete_with (run : arglist → world → world * outcome)
    (args : arglist) (w : world) : world * outcome :=
  let w := set_isRunning false w in
  let w := observe (Completed (isRunning w) (hasPending w)) w in
  if hasPending w then
    let w := set_hasPending false w in
    run args w
  else (w, Returned).

(** The calls the wrapped function makes to the runner while it executes. *)
Definition reenter (run : arglist → world → world * outcome)
    (calls : list arglist) (w : world) : world :=
  foldl (λ w args, fst (run args w)) w calls.

(** Lines 43-76.  [fuel] bounds the depth of the nested calls
    [run] -> [complete] -> [run]; a call that arrives while an execution is
    running needs none. *)
Fixpoint run (fuel : nat) (args : arglist) (w : world) {struct fuel}
    : world * outcome :=
  if isRunning w then (set_hasPending true w, Returned)
  else
    match fuel with
    | O => (w, OutOfFuel)
    | S fuel' =>
        let w := set_isRunning true w in
        let complete := complete_with (run fuel') args in
        let idx := ncalls w in
        let b := fn idx args in
        let w := enter args w in
        let w := reenter (run fuel') (reentrant b) w in
        match ending b with
        | Throw error => rethrow_after (complete w) error
        | Return result =>
            match subscribe_throws b result with
            | Some error => rethrow_after (complete w) error
            | None =>
                if is_thenable result then
                  if has_catch result then (register idx args w, Returned)
                  else rethrow_after (complete w) type_error
                else complete w
            end
        end
    end.

Definition complete (fuel : nat) : arglist → world → world * outcome :=
  complete_with (run fuel).

(** ** Settlement of a promise returned by the wrapped function *)

Inductive settlement : Type :=
| Fulfilled (v : value)
| Rejected (reason : value).

(** [.catch(() => {})]: a rejection becomes a fulfilment with [undefined]. *)
Definition on_catch (s : settlement) : settlement :=
  match s with
  | Fulfilled v => Fulfilled v
  | Rejected _ => Fulfilled VUndefined
  end.

(** [.finally(complete)]: [complete] runs whatever the settlement is; the
    derived promise keeps the settlement unless [complete] throws. *)
Definition on_finally (fuel : nat) (args : arglist) (s : settlement) (w : world)
    : world * option settlement :=
  match complete fuel args w with
  | (w', Returned) => (w', Some s)
  | (w', Raised e) => (w', Some (Rejected e))
  | (w', OutOfFuel) => (w', None)
  end.

(** The promise returned by execution [idx] settles.  The result is the
    settlement of the promise derived by [.catch(...).finally(...)], which
    nobody holds: a rejection there is an unhandled rejection of the host. *)
Definition settle (fuel : nat) (idx : nat) (s : settlement) (w : world)
    : world * option settlement :=
  match handlers w !! idx with
  | None => (w, Some s)
  | Some args => on_finally fuel args (on_catch s) (unregister idx w)
  end.

(** ** Sequences of calls and settlements *)

Inductive event : Type :=
| Invoke (args : arglist)
| Settle (idx : nat) (s : settlement).

Definition is_out (o : outcome) : bool :=
  match o with OutOfFuel => true | _ => false end.

(** One event; the flag tells whether it was processed within the bound.
    An error raised by [run] goes to the caller of the runner, a rejection
    of the derived promise to the host: neither stops later events. *)
Definition step (fuel : nat) (ev : event) (w : world) : world * bool :=
  match ev with
  | Invoke args =>
      let '(w', o) := run fuel args w in (w', negb (is_out o))
  | Settle idx s =>
      match settle fuel idx s w with
      | (w', None) => (w', false)
      | (w', Some _) => (w', true)
      end
  end.

(** Runs the events in order; the flag tells whether all of them were
    processed within the bound. *)
Fixpoint exec (fuel : nat) (evs : list event) (w : world) : world * bool :=
  match evs with
  | [] => (w, true)
  | ev :: evs' =>
      let '(w', ok) := step fuel ev w in
      if ok then exec fuel evs' w' else (w', false)
  end.

(** Runs the events of one chain: it stops as soon as the runner is idle
    again (or the bound is reached). *)
Fixpoint chain (fuel : nat) (evs : list event) (w : world) : world :=
  match evs with
  | [] => w
  | ev :: evs' =>
      let '(w', ok) := step fuel ev w in
      if ok && isRunning w' then chain fuel evs' w' else w'
  end.

End Runner.

(** The argument lists the wrapped function was called with. *)
Fixpoint called_args (l : list obs) : list arglist :=
  match l with
  | [] => []
  | Called args _ _ :: l' => args :: called_args l'
  | Completed _ _ :: l' => called_args l'
  end.

(** An execution whose completion is left to a later settlement. *)
Definition deferred (b : behaviour) : bool :=
  match ending b with
  | Return result =>
      match subscribe_throws b result with
      | Some _ => false
      | None => is_thenable result && has_catch result
      end
  | Throw _ => false
  end.

(** What the recorded observations must look like: the wrapped function is
    entered with [isRunning] set and [hasPending] clear; [complete] has reset
    [isRunning], and where it still sees [hasPending] set the next
    observation is the entry of the follow-up.  Only a log cut off by the
    bound ([closed = false]) may end on such a [Completed]. *)
Fixpoint observations_ok (closed : bool) (l : list obs) : bool :=
  match l with
  | [] => true
  | Called _ running pending :: l' =>
      running && negb pending && observations_ok closed l'
  | Completed running pending :: l' =>
      negb running
      && (if pending then
            match l' with
            | [] => negb closed
            | Called _ _ _ :: _ => true
            | Completed _ _ :: _ => false
            end
          else true)
      && observations_ok closed l'
  end.

(** The error with which an execution that is not deferred reaches the
    [catch] block of [run], if any: what the wrapped function threw, what
    the code of the returned value threw while it was inspected and
    subscribed to, or the [TypeError] of [result.catch(...)]. *)
Definition sync_error (b : behaviour) : option value :=
  match ending b with
  | Throw error => Some error
  | Return result =>
      match subscribe_throws b result with
      | Some error => Some error
      | None => if is_thenable result then Some type_error else None
      end
  end.

(** Line 75 ([complete()]) or lines 71-72 ([complete(); throw error]). *)
Definition finish (error : option value) (r : world * outcome) : world * outcome :=
  match error with
  | Some e => rethrow_after r e
  | None => r
  end.

(** The world in which the body of the wrapped function has been executed:
    [isRunning] is set, the call is observed, and the calls made from inside
    have left their mark. *)
Definition after_body (fn : nat → arglist → behaviour) (args : arglist)
    (w : world) : world :=
  let w1 := enter args (set_isRunning true w) in
  match reentrant (fn (ncalls w) args) with
  | [] => w1
  | _ :: _ => set_hasPending true w1
  end.

(** The world in which [complete] tests [hasPending] (after line 52). *)
Definition completed (w : world) : world :=
  observe (Completed false (hasPending w)) (set_isRunning false w).

(** Between two events [hasPending] is set only while [isRunning] is. *)
Definition quiet (w : world) : Prop :=
  hasPending w = true → isRunning w = true.

(** While a chain started with [args] is alive, the only reaction that can
    be waiting is that of its current execution, and the [complete] it holds
    closes over [args]. *)
Definition chain_inv (args : arglist) (w : world) : Prop :=
  handlers w = ∅ ∨ (isRunning w = true ∧ ∃ idx, handlers w = {[idx := args]}).

(** Two stages of a batch of calls that starts execution number [c] with
    arguments [a], [base] being the calls of the wrapped function made
    before: the first execution is in flight with a call pending, and the
    follow-up has been started (it is in flight or over). *)
Definition first_in_flight (a : arglist) (c : nat) (base : list arglist)
    (v : world) : Prop :=
  isRunning v = true ∧ hasPending v = true ∧ handlers v = {[c := a]}
  ∧ ncalls v = S c ∧ called_args (log v) = base ++ [a].

Definition follow_up_started (a : arglist) (c : nat) (base : list arglist)
    (v : world) : Prop :=
  hasPending v = false ∧ called_args (log v) = base ++ [a; a]
  ∧ ((isRunning v = false ∧ handlers v = ∅)
     ∨ (isRunning v = true ∧ handlers v = {[S c := a]})).

(** The observations of a log alternate: an entry of the wrapped function
    only while no execution is in flight, a completion step only while one
    is.  [in_flight] tells whether an execution is in flight before [l]. *)
Fixpoint alternates (in_flight : bool) (l : list obs) : bool :=
  match l with
  | [] => true
  | Called _ _ _ :: l' => negb in_flight && alternates true l'
  | Completed _ _ :: l' => in_flight && alternates false l'
  end.

(** Whether an execution is in flight after the observations [l]. *)
Fixpoint in_flight_after (in_flight : bool) (l : list obs) : bool :=
  match l with
  | [] => in_flight
  | Called _ _ _ :: l' => in_flight_after true l'
  | Completed _ _ :: l' => in_flight_after false l'
  end.

(** The number of calls of the runner among the events. *)
Fixpoint invokes (evs : list event) : nat :=
  match evs with
  | [] => 0
  | Invoke _ :: evs' => S (invokes evs')
  | Settle _ _ :: evs' => invokes evs'
  end.

Definition pending_count (w : world) : nat :=
  if hasPending w then 1 else 0.

(** ** Example tasks *)

Definition one : arglist := [VNumber 1].
Definition two : arglist := [VNumber 2].
Definition boom : value := VString "boom"%string.

(** An asynchronous task: every execution returns a promise. *)
Definition async_fn : nat → arglist → behaviour :=
  λ _ _, Behaviour [] (Return promise) None.

(** A synchronous task that returns nothing. *)
Definition sync_fn : nat → arglist → behaviour :=
  λ _ _, Behaviour [] (Return VUndefined) None.

(** A task that always throws. *)
Definition throwing_fn : nat → arglist → behaviour :=
  λ _ _, Behaviour [] (Throw boom) None.

(** A task whose first execution calls the runner and then throws, and whose
    later executions return a promise. *)
Definition reenter_throw_then_async : nat → arglist → behaviour :=
  λ i _, match i with
         | O => Behaviour [[]] (Throw boom) None
         | S _ => Behaviour [] (Return promise) None
         end.

(** A task whose first execution calls the runner and then throws, and whose
    later executions return nothing. *)
Definition reenter_throw_then_sync : nat → arglist → behaviour :=
  λ i _, match i with
         | O => Behaviour [[]] (Throw boom) None
         | S _ => Behaviour [] (Return VUndefined) None
         end.

(** A task whose first execution calls the runner and then throws ["boom"],
    and whose later executions throw ["bang"]. *)
Definition bang : value := VString "bang"%string.

Definition reenter_throw_then_throw : nat → arglist → behaviour :=
  λ i _, match i with
         | O => Behaviour [[]] (Throw boom) None
         | S _ => Behaviour [] (Throw bang) None
         end.

(** A task whose first execution returns a promise and whose later
    executions throw. *)
Definition async_then_throw : nat → arglist → behaviour :=
  λ i _, match i with
         | O => Behaviour [] (Return promise) None
         | S _ => Behaviour [] (Throw bang) None
         end.

(** What the host throws when the value returned by [catch(...)] has no
    callable [finally]. *)
Definition finally_type_error : value :=
  VObject false [("name", VString "TypeError"%string);
                 ("message", VString "finally is not a function"%string)].

(** An object whose [then] and [catch] are functions, [catch] returning a
    plain object: there is nothing to call [finally] on. *)
Definition thenable_with_bad_catch : value :=
  VObject false [("then"%string, a_function); ("catch"%string, a_function)].

Definition bad_catch_fn : nat → arglist → behaviour :=
  λ _ _, Behaviour [] (Return thenable_with_bad_catch) (Some finally_type_error).

(** A task that returns an object offering [then] only. *)
Definition bare_fn : nat → arglist → behaviour :=
  λ _ _, Behaviour [] (Return bare_thenable) None.

(** * Properties *)

Section Properties.

Variable fn : nat → arglist → behaviour.

(** ** Unfolding [run] *)

(** Lines 44-47: a call that arrives while an execution is running only
    sets [hasPending]. *)
Lemma run_running fuel args w :
  isRunning w = true →
  run fn fuel args w = (set_hasPending true w, Returned).
Proof. intros Hr. destruct fuel; simpl; rewrite Hr; reflexivity. Qed.

Lemma run_idle_0 args w :
  isRunning w = false → run fn 0 args w = (w, OutOfFuel).
Proof. intros Hi. simpl. by rewrite Hi. Qed.

Lemma set_hasPending_id w : hasPending w = true → set_hasPending true w = w.
Proof. destruct w; simpl; by intros ->. Qed.

Lemma reenter_running fuel calls w :
  isRunning w = true →
  reenter (run fn fuel) calls w
  = match calls with [] => w | _ :: _ => set_hasPending true w end.
Proof.
  intros Hr. unfold reenter.
  assert (Hstep : ∀ cs w0, isRunning w0 = true → hasPending w0 = true →
            foldl (λ w1 args, fst (run fn fuel args w1)) w0 cs = w0).
  { induction cs as [|c cs IH]; intros w0 H1 H2; simpl; [done|].
    rewrite (run_running _ _ _ H1). simpl.
    rewrite set_hasPending_id by done. by apply IH. }
  destruct calls as [|c cs]; simpl; [done|].
  rewrite (run_running _ _ _ Hr). simpl. by apply Hstep.
Qed.

Lemma complete_eq fuel args w :
  complete fn fuel args w
  = if hasPending w then run fn fuel args (set_hasPending false (completed w))
    else (completed w, Returned).
Proof. reflexivity. Qed.

Lemma run_idle fuel args w :
  isRunning w = false →
  run fn (S fuel) args w
  = if deferred (fn (ncalls w) args)
    then (register (ncalls w) args (after_body fn args w), Returned)
    else finish (sync_error (fn (ncalls w) args))
                (complete fn fuel args (after_body fn args w)).
Proof.
  intros Hi. simpl. rewrite Hi.
  rewrite reenter_running by reflexivity.
  unfold deferred, sync_error, after_body, complete. simpl.
  destruct (ending (fn (ncalls w) args)) as [e|v]; [done|].
  destruct (subscribe_throws (fn (ncalls w) args) v); [done|].
  destruct (is_thenable v); [|done]. by destruct (has_catch v).
Qed.

(** Case analysis and induction along the calls of [run]. *)
Lemma run_cases (P : nat → arglist → world → world * outcome → Prop) :
  (∀ fuel args w, isRunning w = true →
     P fuel args w (set_hasPending true w, Returned)) →
  (∀ args w, isRunning w = false → P 0 args w (w, OutOfFuel)) →
  (∀ fuel args w, isRunning w = false →
     deferred (fn (ncalls w) args) = true →
     P (S fuel) args w (register (ncalls w) args (after_body fn args w), Returned)) →
  (∀ fuel args w, isRunning w = false →
     deferred (fn (ncalls w) args) = false →
     hasPending (after_body fn args w) = false →
     P (S fuel) args w
       (finish (sync_error (fn (ncalls w) args))
               (completed (after_body fn args w), Returned))) →
  (∀ fuel args w r, isRunning w = false →
     deferred (fn (ncalls w) args) = false →
     hasPending (after_body fn args w) = true →
     r = run fn fuel args (set_hasPending false (completed (after_body fn args w))) →
     P fuel args (set_hasPending false (completed (after_body fn args w))) r →
     P (S fuel) args w (finish (sync_error (fn (ncalls w) args)) r)) →
  ∀ fuel args w, P fuel args w (run fn fuel args w).
Proof.
  intros Hrun H0 Hdef Hsync Hfollow.
  induction fuel as [|fuel IH]; intros args w.
  - destruct (isRunning w) eqn:Hr.
    + rewrite run_running by done. by apply Hrun.
    + rewrite run_idle_0 by done. by apply H0.
  - destruct (isRunning w) eqn:Hr.
    + rewrite run_running by done. by apply Hrun.
    + rewrite run_idle by done.
      destruct (deferred (fn (ncalls w) args)) eqn:Hd; [by apply Hdef|].
      rewrite complete_eq.
      destruct (hasPending (after_body fn args w)) eqn:Hp.
      * by apply Hfollow.
      * by apply Hsync.
Qed.

(** ** What the building blocks do to the world *)

Lemma fst_finish e r : fst (finish e r) = fst r.
Proof. destruct e as [e|], r as [w [| |]]; reflexivity. Qed.

Lemma fst_rethrow_after r e : fst (rethrow_after r e) = fst r.
Proof. destruct r as [w [| |]]; reflexivity. Qed.

Lemma after_body_isRunning args w : isRunning (after_body fn args w) = true.
Proof. unfold after_body. by destruct (reentrant _). Qed.

Lemma after_body_hasPending args w :
  hasPending (after_body fn args w)
  = match reentrant (fn (ncalls w) args) with
    | [] => hasPending w
    | _ :: _ => true
    end.
Proof. unfold after_body. by destruct (reentrant _). Qed.

Lemma after_body_ncalls args w : ncalls (after_body fn args w) = S (ncalls w).
Proof. unfold after_body. by destruct (reentrant _). Qed.

Lemma after_body_handlers args w : handlers (after_body fn args w) = handlers w.
Proof. unfold after_body. by destruct (reentrant _). Qed.

Lemma after_body_log args w :
  log (after_body fn args w) = log w ++ [Called args true (hasPending w)].
Proof. unfold after_body. by destruct (reentrant _). Qed.

Lemma completed_log w : log (completed w) = log w ++ [Completed false (hasPending w)].
Proof. reflexivity. Qed.

(** ** The log only grows *)

Lemma run_extends fuel args w :
  ∃ l, log (fst (run fn fuel args w)) = log w ++ l
       ∧ ncalls w ≤ ncalls (fst (run fn fuel args w)).
Proof.
  revert fuel args w.
  apply (run_cases (λ _ _ w r, ∃ l, log (fst r) = log w ++ l
                                    ∧ ncalls w ≤ ncalls (fst r))).
  - intros _ _ w _. exists []. simpl. by rewrite app_nil_r.
  - intros _ w _. exists []. simpl. by rewrite app_nil_r.
  - intros _ args w _ _. eexists. simpl.
    rewrite after_body_log, after_body_ncalls. split; [done|lia].
  - intros _ args w _ _ _. eexists. rewrite fst_finish. simpl.
    rewrite after_body_log, after_body_ncalls, <- app_assoc. split; [done|lia].
  - intros _ args w r _ _ _ _ (l & Hl & Hn). eexists. rewrite fst_finish, Hl.
    simpl in *. rewrite after_body_ncalls in Hn.
    rewrite after_body_log, <- !app_assoc. split; [done|lia].
Qed.

Lemma complete_extends fuel args w :
  ∃ l, log (fst (complete fn fuel args w))
       = log w ++ Completed false (hasPending w) :: l.
Proof.
  rewrite complete_eq. destruct (hasPending w) eqn:Hp.
  - destruct (run_extends fuel args (set_hasPending false (completed w)))
      as (l & Hl & _).
    exists l. rewrite Hl. simpl. by rewrite Hp, <- app_assoc.
  - exists []. simpl. by rewrite Hp.
Qed.

(** An idle runner enters the wrapped function at once. *)
Lemma run_idle_log fuel args w :
  isRunning w = false →
  ∃ l, log (fst (run fn (S fuel) args w))
       = log w ++ Called args true (hasPending w) :: l.
Proof.
  intros Hi. rewrite run_idle by done.
  destruct (deferred _).
  - exists []. simpl. by rewrite after_body_log.
  - rewrite fst_finish.
    destruct (complete_extends fuel args (after_body fn args w)) as (l & Hl).
    eexists. rewrite Hl, after_body_log, <- app_assoc. reflexivity.
Qed.

(** ** Calls made while the runner is idle or running *)

(** C7. A call of the runner made while it is idle ([isRunning = false])
    calls the wrapped function with the arguments of that call within the
    same invocation: in the world the invocation hands back, the first new
    observation is the entry of the wrapped function, and the count of
    executions has grown. *)
Theorem idle_invoke_calls_task fuel args w :
  isRunning w = false →
  ∃ rest,
    log (fst (run fn (S fuel) args w))
    = log w ++ Called args true (hasPending w) :: rest
    ∧ ncalls w < ncalls (fst (run fn (S fuel) args w)).
Proof.
  intros Hi. destruct (run_idle_log fuel args w Hi) as (l & Hl).
  exists l. split; [done|].
  rewrite run_idle by done. destruct (deferred _).
  - simpl. rewrite after_body_ncalls. lia.
  - rewrite fst_finish, complete_eq.
    destruct (hasPending (after_body fn args w)).
    + destruct (run_extends fuel args
                  (set_hasPending false (completed (after_body fn args w))))
        as (_ & _ & Hn).
      simpl in Hn. rewrite after_body_ncalls in Hn. lia.
    + simpl. rewrite after_body_ncalls. lia.
Qed.

Lemma exec_invokes_running fuel (calls : list arglist) w :
  isRunning w = true → calls ≠ [] →
  exec fn fuel (Invoke <$> calls) w = (set_hasPending true w, true).
Proof.
  intros Hr Hne.
  assert (Hrest : ∀ cs w0, isRunning w0 = true → hasPending w0 = true →
            exec fn fuel (Invoke <$> cs) w0 = (w0, true)).
  { induction cs as [|c cs IH]; intros w0 H1 H2; [done|].
    simpl. rewrite run_running by done. simpl.
    rewrite set_hasPending_id by done. by apply IH. }
  destruct calls as [|c cs]; [done|].
  simpl. rewrite run_running by done. simpl. by apply Hrest.
Qed.

(** C8. Calls of the runner made while an execution is running are
    idempotent: after [k >= 1] such calls, whatever their arguments, the
    world is the one a single such call leaves ([hasPending] set,
    [isRunning] still set), every one of them returns normally, and the
    wrapped function is not called (no new execution, no new
    observation). *)
Theorem coalesced_calls_idempotent fuel (calls : list arglist) (args : arglist) w :
  isRunning w = true → 1 ≤ length calls →
  let w' := fst (exec fn fuel (Invoke <$> calls) w) in
  w' = fst (run fn fuel args w)
  ∧ snd (run fn fuel args w) = Returned
  ∧ snd (exec fn fuel (Invoke <$> calls) w) = true
  ∧ isRunning w' = true ∧ hasPending w' = true
  ∧ ncalls w' = ncalls w ∧ handlers w' = handlers w ∧ log w' = log w.
Proof.
  intros Hr Hk. simpl.
  assert (calls ≠ []) as Hne by (intros ->; simpl in Hk; lia).
  rewrite exec_invokes_running, run_running by done.
  simpl. by rewrite Hr.
Qed.

(** ** The pending flag *)

Lemma snd_finish_out e r : is_out (snd (finish e r)) = is_out (snd r).
Proof. destruct e as [e|], r as [w [| |]]; reflexivity. Qed.

Lemma run_quiet fuel args w : quiet w → quiet (fst (run fn fuel args w)).
Proof.
  revert fuel args w.
  apply (run_cases (λ _ _ w r, quiet w → quiet (fst r))); unfold quiet.
  - intros _ _ w Hr _ _. done.
  - done.
  - intros _ args w _ _ _ _. simpl. apply after_body_isRunning.
  - intros _ args w _ _ Hp _. rewrite fst_finish. simpl. congruence.
  - intros _ args w r _ _ _ _ IH _. rewrite fst_finish. by apply IH.
Qed.

Lemma complete_quiet fuel args w : quiet (fst (complete fn fuel args w)).
Proof.
  rewrite complete_eq. destruct (hasPending w) eqn:Hp.
  - by apply run_quiet.
  - unfold quiet. simpl. congruence.
Qed.

Lemma observations_ok_app closed l1 l2 :
  observations_ok true l1 = true →
  observations_ok closed l2 = true →
  observations_ok closed (l1 ++ l2) = true.
Proof.
  intros H1 H2. induction l1 as [|o l1 IH]; [done|].
  destruct o as [a r p|r p]; simpl in *.
  - apply andb_prop in H1 as [H1 H1'].
    rewrite H1. simpl. by apply IH.
  - apply andb_prop in H1 as [H1 H1']. apply andb_prop in H1 as [Hr Hp].
    rewrite Hr, (IH H1'), andb_true_r. simpl.
    destruct p; [|done]. destruct l1 as [|[a' r' p'|r' p'] l1]; done.
Qed.

(** The observations one call of [run] adds. *)
Lemma run_observations fuel args w :
  quiet w →
  ∃ l, log (fst (run fn fuel args w)) = log w ++ l
       ∧ observations_ok (negb (is_out (snd (run fn fuel args w)))) l = true
       ∧ (isRunning w = false →
          match l with
          | [] => snd (run fn fuel args w) = OutOfFuel
          | Called _ _ _ :: _ => True
          | Completed _ _ :: _ => False
          end).
Proof.
  revert fuel args w.
  apply (run_cases (λ _ _ w r, quiet w →
    ∃ l, log (fst r) = log w ++ l
         ∧ observations_ok (negb (is_out (snd r))) l = true
         ∧ (isRunning w = false →
            match l with
            | [] => snd r = OutOfFuel
            | Called _ _ _ :: _ => True
            | Completed _ _ :: _ => False
            end))).
  - intros _ _ w Hr _. exists []. simpl. rewrite app_nil_r. by rewrite Hr.
  - intros _ w _ _. exists []. simpl. by rewrite app_nil_r.
  - intros _ args w Hi _ Hq. eexists. simpl. rewrite after_body_log.
    split; [done|]. split; [|done]. simpl.
    destruct (hasPending w) eqn:Hp; [|done]. rewrite Hq in Hi; done.
  - intros _ args w Hi _ Hp Hq. eexists.
    rewrite fst_finish, snd_finish_out. simpl.
    rewrite after_body_log, <- app_assoc. split; [done|]. split; [|done].
    simpl. rewrite Hp. simpl.
    destruct (hasPending w) eqn:Hp'; [|done]. rewrite Hq in Hi; done.
  - intros _ args w r Hi _ Hp _ IH Hq.
    destruct IH as (l & Hl & Hok & Hhd); [unfold quiet; simpl; congruence|].
    eexists. rewrite fst_finish, snd_finish_out, Hl. simpl.
    rewrite after_body_log, <- !app_assoc. split; [done|]. split; [|done].
    simpl. rewrite Hp, Hok, andb_true_r.
    specialize (Hhd eq_refl).
    destruct (hasPending w) eqn:Hp'; [rewrite Hq in Hi; done|]. simpl.
    destruct l as [|[a' r' p'|r' p'] l]; [|done|done].
    by rewrite Hhd.
Qed.

(** The observations one completion step adds. *)
Lemma complete_observations fuel args w :
  ∃ l, log (fst (complete fn fuel args w)) = log w ++ l
       ∧ observations_ok (negb (is_out (snd (complete fn fuel args w)))) l = true.
Proof.
  rewrite complete_eq. destruct (hasPending w) eqn:Hp.
  - destruct (run_observations fuel args (set_hasPending false (completed w)))
      as (l & Hl & Hok & Hhd); [unfold quiet; simpl; congruence|].
    eexists. rewrite Hl. simpl. rewrite <- app_assoc. split; [done|].
    simpl. rewrite Hp, Hok, andb_true_r. specialize (Hhd eq_refl).
    destruct l as [|[a' r' p'|r' p'] l]; [|done|done].
    by rewrite Hhd.
  - eexists. simpl. split; [done|]. simpl. by rewrite Hp.
Qed.

Lemma step_observations fuel ev w :
  quiet w →
  quiet (fst (step fn fuel ev w))
  ∧ ∃ l, log (fst (step fn fuel ev w)) = log w ++ l
         ∧ observations_ok (snd (step fn fuel ev w)) l = true.
Proof.
  intros Hq. destruct ev as [args|idx s]; simpl.
  - pose proof (run_quiet fuel args w Hq) as Hq'.
    destruct (run_observations fuel args w Hq) as (l & Hl & Hok & _).
    destruct (run fn fuel args w) as [w' o]. simpl in *. eauto.
  - unfold settle. destruct (handlers w !! idx) as [args|] eqn:Hh.
    + unfold on_finally.
      pose proof (complete_quiet fuel args (unregister idx w)) as Hq'.
      destruct (complete_observations fuel args (unregister idx w))
        as (l & Hl & Hok).
      destruct (complete fn fuel args (unregister idx w)) as [w' [|e|]];
        simpl in *; eauto.
    + simpl. split; [done|]. exists []. by rewrite app_nil_r.
Qed.

Lemma exec_observations fuel evs w :
  quiet w → observations_ok true (log w) = true →
  quiet (fst (exec fn fuel evs w))
  ∧ observations_ok (snd (exec fn fuel evs w)) (log (fst (exec fn fuel evs w))) = true.
Proof.
  revert w. induction evs as [|ev evs IH]; intros w Hq Hok; [done|].
  simpl. destruct (step_observations fuel ev w Hq) as (Hq' & l & Hl & Hok').
  destruct (step fn fuel ev w) as [w' ok]. simpl in *.
  destruct ok.
  - apply IH; [done|]. rewrite Hl. by apply observations_ok_app.
  - simpl. split; [done|]. rewrite Hl. by apply observations_ok_app.
Qed.

(** C6. At every observable point of every run of the runner, started
    from the fresh state: between two events [hasPending] is set only while
    [isRunning] is set; the wrapped function is always entered with
    [isRunning] set and [hasPending] clear, so the flag is cleared before
    the follow-up it stands for begins; and the only other point at which
    [hasPending] is seen set is the completion step, after [isRunning] was
    reset, where the next observation is the entry of the follow-up. *)
Theorem pending_only_while_running fuel evs :
  let r := exec fn fuel evs coalesce in
  (hasPending (fst r) = true → isRunning (fst r) = true)
  ∧ observations_ok (snd r) (log (fst r)) = true.
Proof. by apply exec_observations. Qed.

(** ** The arguments of a chain of executions *)

Lemma called_args_app l1 l2 :
  called_args (l1 ++ l2) = called_args l1 ++ called_args l2.
Proof.
  induction l1 as [|[a r p|r p] l1 IH]; simpl; [done| |done].
  by rewrite IH.
Qed.

Lemma run_chain fuel args w :
  handlers w = ∅ →
  ∃ k, called_args (log (fst (run fn fuel args w)))
       = called_args (log w) ++ replicate k args
       ∧ chain_inv args (fst (run fn fuel args w)).
Proof.
  revert fuel args w.
  apply (run_cases (λ _ args w r, handlers w = ∅ →
    ∃ k, called_args (log (fst r)) = called_args (log w) ++ replicate k args
         ∧ chain_inv args (fst r))).
  - intros _ args w _ Hh. exists 0. simpl. rewrite app_nil_r.
    split; [done|]. by left.
  - intros args w _ Hh. exists 0. simpl. rewrite app_nil_r.
    split; [done|]. by left.
  - intros _ args w _ _ Hh. exists 1. simpl.
    rewrite after_body_log, called_args_app. split; [done|].
    right. simpl. rewrite after_body_isRunning, after_body_handlers, Hh.
    split; [done|]. exists (ncalls w). apply insert_empty.
  - intros _ args w _ _ _ Hh. exists 1. rewrite fst_finish. simpl.
    rewrite after_body_log, !called_args_app.
    simpl. rewrite app_nil_r. split; [done|].
    left. simpl. by rewrite after_body_handlers.
  - intros _ args w r _ _ _ _ IH Hh.
    destruct IH as (k & Hk & Hinv); [simpl; by rewrite after_body_handlers|].
    exists (S k). rewrite fst_finish, Hk. simpl.
    rewrite after_body_log, !called_args_app. simpl.
    rewrite app_nil_r, <- app_assoc. done.
Qed.

Lemma complete_chain fuel args w :
  handlers w = ∅ →
  ∃ k, called_args (log (fst (complete fn fuel args w)))
       = called_args (log w) ++ replicate k args
       ∧ chain_inv args (fst (complete fn fuel args w)).
Proof.
  intros Hh. rewrite complete_eq. destruct (hasPending w).
  - destruct (run_chain fuel args (set_hasPending false (completed w)) Hh)
      as (k & Hk & Hinv).
    exists k. rewrite Hk. simpl. rewrite called_args_app. simpl.
    by rewrite app_nil_r.
  - exists 0. simpl. rewrite called_args_app. simpl.
    rewrite !app_nil_r. split; [done|]. by left.
Qed.

(** A settlement inside a chain runs the [complete] of that chain. *)
Lemma settle_chain fuel args idx s w :
  chain_inv args w →
  ∃ k, called_args (log (fst (settle fn fuel idx s w)))
       = called_args (log w) ++ replicate k args
       ∧ chain_inv args (fst (settle fn fuel idx s w)).
Proof.
  intros Hinv. unfold settle.
  destruct (handlers w !! idx) as [args'|] eqn:Hh.
  - assert (args' = args ∧ handlers (unregister idx w) = ∅) as [-> Hempty].
    { destruct Hinv as [He|(_ & i & Hi)].
      - rewrite He, lookup_empty in Hh. done.
      - rewrite Hi in Hh. apply lookup_singleton_Some in Hh as [-> ->].
        split; [done|]. simpl. rewrite Hi. apply delete_singleton_eq. }
    unfold on_finally.
    destruct (complete_chain fuel args (unregister idx w) Hempty)
      as (k & Hk & Hinv').
    exists k.
    destruct (complete fn fuel args (unregister idx w)) as [w' [|e|]];
      simpl in *; done.
  - exists 0. simpl. by rewrite app_nil_r.
Qed.

Lemma step_chain fuel args ev w :
  chain_inv args w → isRunning w = true →
  ∃ k, called_args (log (fst (step fn fuel ev w)))
       = called_args (log w) ++ replicate k args
       ∧ chain_inv args (fst (step fn fuel ev w)).
Proof.
  intros Hinv Hr. destruct ev as [args'|idx s]; simpl.
  - rewrite run_running by done. simpl. exists 0.
    by rewrite app_nil_r.
  - destruct (settle_chain fuel args idx s w Hinv) as (k & Hk & Hinv').
    exists k. destruct (settle fn fuel idx s w) as [w' [s'|]]; done.
Qed.

Lemma chain_calls fuel args evs w :
  chain_inv args w → isRunning w = true →
  ∃ k, called_args (log (chain fn fuel evs w))
       = called_args (log w) ++ replicate k args.
Proof.
  revert w. induction evs as [|ev evs IH]; intros w Hinv Hr.
  - exists 0. simpl. by rewrite app_nil_r.
  - simpl. destruct (step_chain fuel args ev w Hinv Hr) as (k & Hk & Hinv').
    destruct (step fn fuel ev w) as [w' ok]. simpl in *.
    destruct (ok && isRunning w') eqn:Hgo.
    + apply andb_prop in Hgo as [_ Hr'].
      destruct (IH w' Hinv' Hr') as (k' & Hk').
      exists (k + k'). by rewrite Hk', Hk, replicate_add, app_assoc.
    + by exists k.
Qed.

Lemma chain_invoke fuel args evs w :
  chain fn fuel (Invoke args :: evs) w
  = if negb (is_out (snd (run fn fuel args w)))
       && isRunning (fst (run fn fuel args w))
    then chain fn fuel evs (fst (run fn fuel args w))
    else fst (run fn fuel args w).
Proof. cbn [chain step]. by destruct (run fn fuel args w). Qed.

(** Every idle world that is reached from the fresh state has no waiting
    reaction. *)
Lemma exec_handlers fuel evs w :
  (∃ args, chain_inv args w) →
  ∃ args, chain_inv args (fst (exec fn fuel evs w)).
Proof.
  revert w. induction evs as [|ev evs IH]; intros w Hinv; [done|].
  simpl.
  assert (∃ args, chain_inv args (fst (step fn fuel ev w))) as Hinv'.
  { destruct Hinv as [args Hinv]. destruct ev as [args'|idx s].
    - simpl. destruct (isRunning w) eqn:Hr.
      + rewrite run_running by done. by exists args.
      + assert (handlers w = ∅) as Hh
          by (destruct Hinv as [|[? _]]; congruence).
        destruct (run_chain fuel args' w Hh) as (_ & _ & Hc).
        exists args'. by destruct (run fn fuel args' w) as [w' o].
    - simpl. destruct (settle_chain fuel args idx s w Hinv) as (_ & _ & Hc).
      exists args. by destruct (settle fn fuel idx s w) as [w' [s'|]]. }
  destruct (step fn fuel ev w) as [w' ok]. destruct ok; [by apply IH|done].
Qed.

Lemma reachable_idle_no_handlers fuel evs :
  isRunning (fst (exec fn fuel evs coalesce)) = false →
  handlers (fst (exec fn fuel evs coalesce)) = ∅.
Proof.
  intros Hi.
  destruct (exec_handlers fuel evs coalesce) as (args & [H|[H _]]);
    [exists []; by left|done|congruence].
Qed.

(** C9. Every execution of a chain calls the wrapped function with the
    argument list of the call that started the chain.  Starting from an
    idle runner with no reaction waiting (as every idle state reached from
    the fresh one is), the chain begun by [Invoke args] and driven by any
    events, among them calls with other arguments that arrive while an
    execution is running, enters the wrapped function at least once, and
    every time with [args]. *)
Theorem chain_replays_first_args fuel args evs w :
  isRunning w = false → handlers w = ∅ →
  ∃ k, called_args (log (chain fn (S fuel) (Invoke args :: evs) w))
       = called_args (log w) ++ replicate (S k) args.
Proof.
  intros Hi Hh.
  rewrite chain_invoke.
  destruct (run_idle_log fuel args w Hi) as (l & Hl).
  destruct (run_chain (S fuel) args w Hh) as (k & Hk & Hinv).
  destruct (run fn (S fuel) args w) as [w' o]. simpl in Hl, Hk, Hinv |- *.
  assert (k ≠ 0) as Hk0.
  { intros ->. apply (f_equal length) in Hk.
    rewrite Hl, called_args_app, !length_app in Hk. simpl in Hk. lia. }
  destruct k as [|k]; [done|].
  destruct (negb (is_out o) && isRunning w') eqn:Hgo; [|by exists k].
  apply andb_prop in Hgo as [_ Hr'].
  destruct (chain_calls (S fuel) args evs w' Hinv Hr') as (k' & Hk').
  exists (k + k').
  rewrite Hk', Hk, <- app_assoc, <- replicate_add. done.
Qed.

(** ** Settlement *)

Lemma exec_app fuel evs1 evs2 w :
  exec fn fuel (evs1 ++ evs2) w
  = if snd (exec fn fuel evs1 w)
    then exec fn fuel evs2 (fst (exec fn fuel evs1 w))
    else (fst (exec fn fuel evs1 w), false).
Proof.
  revert w. induction evs1 as [|ev evs1 IH]; intros w; [done|].
  simpl. destruct (step fn fuel ev w) as [w' [|]]; [apply IH|done].
Qed.

Lemma settle_registered fuel idx args s w :
  handlers w !! idx = Some args →
  settle fn fuel idx s w
  = match complete fn fuel args (unregister idx w) with
    | (w', Returned) => (w', Some (on_catch s))
    | (w', Raised e) => (w', Some (Rejected e))
    | (w', OutOfFuel) => (w', None)
    end.
Proof. intros Hh. unfold settle, on_finally. by rewrite Hh. Qed.

Lemma fst_settle_registered fuel idx args s w :
  handlers w !! idx = Some args →
  fst (settle fn fuel idx s w) = fst (complete fn fuel args (unregister idx w)).
Proof.
  intros Hh. rewrite (settle_registered _ _ _ _ _ Hh).
  by destruct (complete fn fuel args (unregister idx w)) as [w' [|e|]].
Qed.

(** The completion step that a settlement triggers, and the follow-up it
    starts when a call is pending. *)
Lemma settle_log fuel idx args s w :
  handlers w !! idx = Some args →
  ∃ rest,
    log (fst (settle fn (S fuel) idx s w))
    = log w ++ Completed false (hasPending w) :: rest
    ∧ (hasPending w = true → ∃ rest', rest = Called args true false :: rest').
Proof.
  intros Hh. rewrite (fst_settle_registered _ _ _ _ _ Hh), complete_eq.
  change (hasPending (unregister idx w)) with (hasPending w).
  destruct (hasPending w) eqn:Hp.
  - destruct (run_idle_log fuel args
                (set_hasPending false (completed (unregister idx w))) eq_refl)
      as (l & Hl).
    rewrite Hl. simpl. rewrite Hp, <- app_assoc. eauto.
  - simpl. rewrite Hp. exists []. split; [done|]. done.
Qed.

(** X12. When the reaction of an execution is waiting (the value it
    returned was subscribed to, as a promise is) and that promise rejects,
    nothing of the rejection reaches anybody: the settlement has the very
    effect of a fulfilment, on the world and on the derived promise,
    whatever the reason is; the completion step runs (its observation is
    the first new one, with [isRunning] reset), and if a call is pending the
    follow-up is entered right after it, with [hasPending] cleared.  The
    derived promise is fulfilled unless the follow-up itself throws
    synchronously. *)
Theorem rejection_swallowed fuel idx args reason w :
  handlers w !! idx = Some args →
  settle fn (S fuel) idx (Rejected reason) w
  = settle fn (S fuel) idx (Fulfilled VUndefined) w
  ∧ snd (settle fn (S fuel) idx (Rejected reason) w)
    = match snd (complete fn (S fuel) args (unregister idx w)) with
      | Returned => Some (Fulfilled VUndefined)
      | Raised e => Some (Rejected e)
      | OutOfFuel => None
      end
  ∧ ∃ rest,
      log (fst (settle fn (S fuel) idx (Rejected reason) w))
      = log w ++ Completed false (hasPending w) :: rest
      ∧ (hasPending w = true → ∃ rest', rest = Called args true false :: rest').
Proof.
  intros Hh. split; [|split].
  - by rewrite !(settle_registered _ _ _ _ _ Hh).
  - rewrite (settle_registered _ _ _ _ _ Hh).
    by destruct (complete fn (S fuel) args (unregister idx w)) as [w' [|e|]].
  - by apply settle_log.
Qed.

(** C1 (amended). The runner keeps no record of the latest arguments: a
    call that arrives while an execution is running sets [hasPending] and
    its argument list is dropped (the waiting reaction, and with it the
    [args] its [complete] closes over, is untouched).  When the execution
    settles, the completion step starts the follow-up with the arguments
    of the execution that has just completed. *)
Theorem follow_up_replays_completed_args fuel idx args (later : list arglist) s w :
  isRunning w = true → handlers w !! idx = Some args → 1 ≤ length later →
  handlers (fst (exec fn (S fuel) (Invoke <$> later) w)) = handlers w
  ∧ ∃ rest,
      log (fst (exec fn (S fuel) ((Invoke <$> later) ++ [Settle idx s]) w))
      = log w ++ Completed false true :: Called args true false :: rest.
Proof.
  intros Hr Hh Hk.
  assert (later ≠ []) as Hne by (intros ->; simpl in Hk; lia).
  rewrite exec_app, exec_invokes_running by done. simpl fst. simpl snd.
  split; [done|]. cbn [exec step].
  destruct (settle_log fuel idx args s (set_hasPending true w) Hh)
    as (rest & Hl & Hrest).
  destruct (Hrest eq_refl) as (rest' & ->).
  exists rest'.
  by destruct (settle fn (S fuel) idx s (set_hasPending true w)) as [w' [s'|]].
Qed.

(** ** Executions that end inside the call of [run] *)

Lemma run_sync_no_reentry fuel args w :
  isRunning w = false → hasPending w = false →
  reentrant (fn (ncalls w) args) = [] →
  deferred (fn (ncalls w) args) = false →
  run fn (S fuel) args w
  = finish (sync_error (fn (ncalls w) args))
           (completed (after_body fn args w), Returned).
Proof.
  intros Hi Hp Hre Hd. rewrite run_idle, Hd, complete_eq by done.
  by rewrite after_body_hasPending, Hre, Hp.
Qed.

Lemma run_sync_reentry fuel args w :
  isRunning w = false →
  reentrant (fn (ncalls w) args) ≠ [] →
  deferred (fn (ncalls w) args) = false →
  run fn (S fuel) args w
  = finish (sync_error (fn (ncalls w) args))
           (run fn fuel args (set_hasPending false (completed (after_body fn args w)))).
Proof.
  intros Hi Hre Hd. rewrite run_idle, Hd, complete_eq by done.
  rewrite after_body_hasPending. by destruct (reentrant _).
Qed.

Lemma deferred_throw b error : ending b = Throw error → deferred b = false.
Proof. unfold deferred. by intros ->. Qed.

Lemma sync_error_throw b error : ending b = Throw error → sync_error b = Some error.
Proof. unfold sync_error. by intros ->. Qed.

Lemma deferred_non_thenable b v :
  ending b = Return v → is_thenable v = false → deferred b = false.
Proof.
  unfold deferred. intros -> ->. by destruct (subscribe_throws b v).
Qed.

Lemma sync_error_non_thenable b v :
  ending b = Return v → is_thenable v = false → subscribe_error b = None →
  sync_error b = None.
Proof.
  unfold sync_error, subscribe_throws. intros -> -> ->.
  by destruct (is_object v).
Qed.

Lemma subscribe_throws_none b v :
  subscribe_error b = None → subscribe_throws b v = None.
Proof. unfold subscribe_throws. intros ->. by destruct (is_object v). Qed.

(** A promise (a thenable that offers [catch], subscribed to without an
    error) defers the completion step. *)
Lemma thenable_with_catch_defers fuel args v w :
  isRunning w = false →
  ending (fn (ncalls w) args) = Return v →
  subscribe_error (fn (ncalls w) args) = None →
  is_thenable v = true → has_catch v = true →
  run fn (S fuel) args w
  = (register (ncalls w) args (after_body fn args w), Returned).
Proof.
  intros Hi He Hs Ht Hc. rewrite run_idle by done.
  unfold deferred. by rewrite He, (subscribe_throws_none _ v Hs), Ht, Hc.
Qed.

(** Any other value than a thenable, read without an error: the completion
    step runs at once. *)
Lemma non_thenable_completes_now fuel args v w :
  isRunning w = false →
  ending (fn (ncalls w) args) = Return v →
  subscribe_error (fn (ncalls w) args) = None →
  is_thenable v = false →
  run fn (S fuel) args w = complete fn fuel args (after_body fn args w).
Proof.
  intros Hi He Hs Ht. rewrite run_idle by done.
  by rewrite (deferred_non_thenable _ _ He Ht),
       (sync_error_non_thenable _ _ He Ht Hs).
Qed.

(** C4 (amended). When the wrapped function, called by an idle runner,
    throws without having called the runner during that execution, the
    runner raises that same error to its caller and is idle again
    ([isRunning] and [hasPending] both clear, the completion step having
    run), and the next call of the runner enters the wrapped function at
    once. *)
Theorem sync_throw_without_reentry_resets fuel args args' error w :
  isRunning w = false → hasPending w = false →
  reentrant (fn (ncalls w) args) = [] →
  ending (fn (ncalls w) args) = Throw error →
  snd (run fn (S fuel) args w) = Raised error
  ∧ isRunning (fst (run fn (S fuel) args w)) = false
  ∧ hasPending (fst (run fn (S fuel) args w)) = false
  ∧ log (fst (run fn (S fuel) args w))
    = log w ++ [Called args true false; Completed false false]
  ∧ ∃ rest,
      log (fst (run fn (S fuel) args' (fst (run fn (S fuel) args w))))
      = log (fst (run fn (S fuel) args w)) ++ Called args' true false :: rest.
Proof.
  intros Hi Hp Hre He.
  assert (run fn (S fuel) args w
          = (completed (after_body fn args w), Raised error)) as Heq.
  { rewrite run_sync_no_reentry by eauto using deferred_throw.
    by rewrite (sync_error_throw _ _ He). }
  assert (hasPending (after_body fn args w) = false) as Hpb
    by (by rewrite after_body_hasPending, Hre).
  assert (log (completed (after_body fn args w))
          = log w ++ [Called args true false; Completed false false]) as Hlog.
  { simpl. by rewrite Hpb, after_body_log, Hp, <- app_assoc. }
  rewrite Heq. cbn [fst snd].
  split; [done|]. split; [done|]. split; [done|]. split; [done|].
  destruct (run_idle_log fuel args' (completed (after_body fn args w)) eq_refl)
    as (l & Hl).
  exists l. rewrite Hl. by rewrite <- Hpb.
Qed.

(** C10 (amended). When the wrapped function, called by an idle runner,
    throws synchronously, the completion step runs before anything is
    raised: [isRunning] is reset first.  If a call made from inside the
    wrapped function had set [hasPending], the completion step clears it and
    enters the follow-up (same arguments) before the runner raises anything,
    and the original error reaches the caller of the runner if the nested
    call of [run] that executes the follow-up returns normally.  In
    particular, for a follow-up that makes no call of its own: if it returns
    a value that is not a thenable (read without an error), it has run to
    completion and the runner is idle when the original error reaches the
    caller; if its completion is deferred (it returns a promise), the
    original error reaches the caller while the follow-up is still in
    flight ([isRunning] set, its reaction waiting, no completion step of its
    own yet). *)
Theorem sync_throw_completes_before_rethrow fuel args error v w :
  isRunning w = false → hasPending w = false →
  ending (fn (ncalls w) args) = Throw error →
  (∃ rest,
     log (fst (run fn (S fuel) args w))
     = log w ++ Called args true false
             :: Completed false (hasPending (after_body fn args w)) :: rest)
  ∧ (reentrant (fn (ncalls w) args) ≠ [] →
       (∃ rest,
          log (fst (run fn (S (S fuel)) args w))
          = log w ++ Called args true false :: Completed false true
                  :: Called args true false :: rest)
       ∧ (snd (run fn (S fuel) args
                 (set_hasPending false (completed (after_body fn args w))))
          = Returned →
          run fn (S (S fuel)) args w
          = (fst (run fn (S fuel) args
                    (set_hasPending false (completed (after_body fn args w)))),
             Raised error)))
  ∧ (reentrant (fn (ncalls w) args) ≠ [] →
     reentrant (fn (S (ncalls w)) args) = [] →
     ending (fn (S (ncalls w)) args) = Return v → is_thenable v = false →
     subscribe_error (fn (S (ncalls w)) args) = None →
       snd (run fn (S (S fuel)) args w) = Raised error
       ∧ isRunning (fst (run fn (S (S fuel)) args w)) = false
       ∧ hasPending (fst (run fn (S (S fuel)) args w)) = false
       ∧ log (fst (run fn (S (S fuel)) args w))
         = log w ++ [Called args true false; Completed false true;
                     Called args true false; Completed false false])
  ∧ (reentrant (fn (ncalls w) args) ≠ [] →
     reentrant (fn (S (ncalls w)) args) = [] →
     deferred (fn (S (ncalls w)) args) = true →
       snd (run fn (S (S fuel)) args w) = Raised error
       ∧ isRunning (fst (run fn (S (S fuel)) args w)) = true
       ∧ hasPending (fst (run fn (S (S fuel)) args w)) = false
       ∧ handlers (fst (run fn (S (S fuel)) args w)) !! S (ncalls w) = Some args
       ∧ log (fst (run fn (S (S fuel)) args w))
         = log w ++ [Called args true false; Completed false true;
                     Called args true false]).
Proof.
  intros Hi Hp He.
  pose proof (deferred_throw _ _ He) as Hd.
  pose proof (sync_error_throw _ _ He) as Hse.
  assert (∀ n, reentrant (fn (ncalls w) args) ≠ [] →
            run fn (S n) args w
            = rethrow_after
                (run fn n args
                   (set_hasPending false (completed (after_body fn args w))))
                error) as Hfollow.
  { intros n Hre. by rewrite run_sync_reentry, Hse. }
  assert (reentrant (fn (ncalls w) args) ≠ [] →
          hasPending (after_body fn args w) = true) as Hpb.
  { intros Hre. rewrite after_body_hasPending. by destruct (reentrant _). }
  split; [|split; [|split]].
  - rewrite run_idle, Hd, fst_finish by done.
    destruct (complete_extends fuel args (after_body fn args w)) as (l & Hl).
    exists l. by rewrite Hl, after_body_log, Hp, <- app_assoc.
  - intros Hre. rewrite Hfollow by done. split.
    + rewrite fst_rethrow_after.
      destruct (run_idle_log fuel args
                  (set_hasPending false (completed (after_body fn args w))) eq_refl)
        as (l & Hl).
      exists l. rewrite Hl. simpl.
      by rewrite (Hpb Hre), after_body_log, Hp, <- !app_assoc.
    + destruct (run fn (S fuel) args _) as [w' o]. simpl. by intros ->.
  - intros Hre Hre2 He2 Hnt Hs2.
    rewrite Hfollow by done.
    rewrite run_sync_no_reentry; simpl;
      rewrite ?after_body_ncalls;
      eauto using deferred_non_thenable.
    rewrite (sync_error_non_thenable _ _ He2 Hnt Hs2). simpl.
    repeat (split; [done|]).
    rewrite !after_body_hasPending. simpl. rewrite after_body_ncalls, Hre2.
    rewrite !after_body_log. simpl. rewrite after_body_log, after_body_hasPending.
    rewrite Hp. destruct (reentrant (fn (ncalls w) args)); [done|].
    by rewrite <- !app_assoc.
  - intros Hre Hre2 Hd2.
    rewrite Hfollow by done.
    rewrite run_idle by done.
    change (ncalls (set_hasPending false (completed (after_body fn args w))))
      with (ncalls (after_body fn args w)).
    rewrite after_body_ncalls, Hd2. simpl.
    rewrite after_body_isRunning, after_body_hasPending, after_body_log. simpl.
    rewrite after_body_ncalls, Hre2, lookup_insert_eq, after_body_log,
      (Hpb Hre), Hp, <- !app_assoc.
    done.
Qed.

(** ** A batch of calls *)

Lemma exec_cons fuel ev evs w :
  exec fn fuel (ev :: evs) w
  = if snd (step fn fuel ev w)
    then exec fn fuel evs (fst (step fn fuel ev w))
    else (fst (step fn fuel ev w), false).
Proof. cbn [exec]. by destruct (step fn fuel ev w) as [w' [|]]. Qed.

Lemma step_invoke fuel args w :
  step fn fuel (Invoke args) w
  = (fst (run fn fuel args w), negb (is_out (snd (run fn fuel args w)))).
Proof. cbn [step]. by destruct (run fn fuel args w). Qed.

(** The follow-up, when it makes no call of its own. *)
Lemma follow_up_run fuel a c base u :
  isRunning u = false → hasPending u = false → handlers u = ∅ →
  ncalls u = S c → called_args (log u) = base ++ [a] →
  reentrant (fn (S c) a) = [] →
  is_out (snd (run fn (S fuel) a u)) = false
  ∧ follow_up_started a c base (fst (run fn (S fuel) a u)).
Proof.
  intros Hi Hp Hh Hn Hc Hre. unfold follow_up_started.
  destruct (deferred (fn (ncalls u) a)) eqn:Hd.
  - rewrite run_idle, Hd by done. simpl.
    rewrite after_body_hasPending, after_body_log, after_body_isRunning,
      after_body_handlers, called_args_app, Hn, Hre, Hp, Hc, Hh, <- app_assoc.
    split; [done|]. split; [done|]. split; [done|].
    right. split; [done|]. apply insert_empty.
  - rewrite run_sync_no_reentry by (done || by rewrite Hn).
    rewrite snd_finish_out, fst_finish. simpl.
    rewrite after_body_hasPending, after_body_log, after_body_handlers,
      !called_args_app, Hn, Hre, Hp, Hc, Hh.
    simpl. rewrite app_nil_r, <- app_assoc.
    split; [done|]. split; [done|]. split; [done|]. by left.
Qed.

(** The first execution settles while a call is pending. *)
Lemma settle_first fuel a c base s v :
  first_in_flight a c base v →
  reentrant (fn (S c) a) = [] →
  snd (step fn (S fuel) (Settle c s) v) = true
  ∧ follow_up_started a c base (fst (step fn (S fuel) (Settle c s) v)).
Proof.
  intros (Hr & Hp & Hh & Hn & Hc) Hre.
  assert (handlers v !! c = Some a) as Hlook
    by (rewrite Hh; apply lookup_singleton_eq).
  cbn [step]. rewrite (settle_registered _ _ _ _ _ Hlook), complete_eq.
  change (hasPending (unregister c v)) with (hasPending v). rewrite Hp.
  destruct (follow_up_run fuel a c base
              (set_hasPending false (completed (unregister c v))))
    as (Hout & Hstarted); try done.
  - simpl. rewrite Hh. apply delete_singleton_eq.
  - simpl. by rewrite called_args_app, Hc, app_nil_r.
  - destruct (run fn (S fuel) a _) as [w' [|e|]]; done.
Qed.

(** Once the follow-up is started, the settlement of the first execution
    changes nothing any more. *)
Lemma settle_first_late fuel a c base s v :
  follow_up_started a c base v →
  step fn fuel (Settle c s) v = (v, true).
Proof.
  intros (Hp & Hc & [[Hi Hh]|[Hr Hh]]); cbn [step]; unfold settle.
  - by rewrite Hh, lookup_empty.
  - rewrite Hh, lookup_singleton_ne by lia. done.
Qed.

(** The follow-up settles (if it was deferred): the runner is idle. *)
Lemma settle_follow_up fuel a c base s v :
  follow_up_started a c base v →
  snd (step fn fuel (Settle (S c) s) v) = true
  ∧ isRunning (fst (step fn fuel (Settle (S c) s) v)) = false
  ∧ hasPending (fst (step fn fuel (Settle (S c) s) v)) = false
  ∧ called_args (log (fst (step fn fuel (Settle (S c) s) v))) = base ++ [a; a].
Proof.
  intros (Hp & Hc & [[Hi Hh]|[Hr Hh]]); cbn [step]; unfold settle.
  - by rewrite Hh, lookup_empty.
  - rewrite Hh, lookup_singleton_eq. unfold on_finally.
    rewrite complete_eq.
    change (hasPending (unregister (S c) v)) with (hasPending v).
    rewrite Hp. simpl. by rewrite Hp, called_args_app, Hc, app_nil_r.
Qed.

(** The calls of a batch, up to the point where the first execution is
    over or left in flight. *)
Lemma first_batch fuel a (others : list arglist) w :
  isRunning w = false → hasPending w = false → handlers w = ∅ →
  reentrant (fn (S (ncalls w)) a) = [] →
  (deferred (fn (ncalls w) a) = false → others = []) →
  2 ≤ 1 + length (reentrant (fn (ncalls w) a)) + length others →
  snd (exec fn (S (S fuel)) (Invoke a :: (Invoke <$> others)) w) = true
  ∧ if deferred (fn (ncalls w) a)
    then first_in_flight a (ncalls w) (called_args (log w))
           (fst (exec fn (S (S fuel)) (Invoke a :: (Invoke <$> others)) w))
    else follow_up_started a (ncalls w) (called_args (log w))
           (fst (exec fn (S (S fuel)) (Invoke a :: (Invoke <$> others)) w)).
Proof.
  intros Hi Hp Hh Hre2 Hsync HN.
  rewrite exec_cons, step_invoke. cbn [fst snd].
  destruct (deferred (fn (ncalls w) a)) eqn:Hd.
  - rewrite run_idle, Hd by done. cbn [fst snd is_out negb].
    set (w1 := register (ncalls w) a (after_body fn a w)).
    assert (isRunning w1 = true) as Hr1 by apply after_body_isRunning.
    assert (handlers w1 = {[ncalls w := a]}) as Hh1.
    { simpl. rewrite after_body_handlers, Hh. apply insert_empty. }
    assert (called_args (log w1) = called_args (log w) ++ [a]) as Hc1.
    { simpl. by rewrite after_body_log, called_args_app. }
    assert (ncalls w1 = S (ncalls w)) as Hn1 by apply after_body_ncalls.
    destruct others as [|o others].
    + cbn [fmap list_fmap exec]. split; [done|].
      assert (hasPending w1 = true) as Hp1.
      { simpl. rewrite after_body_hasPending.
        destruct (reentrant (fn (ncalls w) a)); [simpl in HN; lia|done]. }
      done.
    + rewrite exec_invokes_running by done. by cbn [fst snd].
  - rewrite (Hsync eq_refl) in HN |- *. cbn [fmap list_fmap exec].
    assert (reentrant (fn (ncalls w) a) ≠ []) as Hre1.
    { intros Hnil. rewrite Hnil in HN. simpl in HN. lia. }
    rewrite run_sync_reentry by done.
    rewrite snd_finish_out, fst_finish.
    destruct (follow_up_run fuel a (ncalls w) (called_args (log w))
                (set_hasPending false (completed (after_body fn a w))))
      as (Hout & Hstarted); try done.
    + simpl. by rewrite after_body_handlers.
    + simpl. apply after_body_ncalls.
    + simpl. by rewrite after_body_log, !called_args_app, app_nil_r.
    + rewrite Hout. by cbn [negb].
Qed.

Lemma after_first_settlement fuel a (others : list arglist) s w :
  isRunning w = false → hasPending w = false → handlers w = ∅ →
  reentrant (fn (S (ncalls w)) a) = [] →
  (deferred (fn (ncalls w) a) = false → others = []) →
  2 ≤ 1 + length (reentrant (fn (ncalls w) a)) + length others →
  snd (exec fn (S (S fuel))
         ((Invoke a :: (Invoke <$> others)) ++ [Settle (ncalls w) s]) w) = true
  ∧ follow_up_started a (ncalls w) (called_args (log w))
      (fst (exec fn (S (S fuel))
              ((Invoke a :: (Invoke <$> others)) ++ [Settle (ncalls w) s]) w)).
Proof.
  intros Hi Hp Hh Hre2 Hsync HN.
  destruct (first_batch fuel a others w Hi Hp Hh Hre2 Hsync HN) as (Hok & Hst).
  rewrite exec_app, Hok, exec_cons.
  destruct (deferred (fn (ncalls w) a)).
  - destruct (settle_first (S fuel) a _ _ s _ Hst Hre2) as (Hok' & Hst').
    rewrite Hok'. done.
  - rewrite (settle_first_late _ _ _ _ s _ Hst). done.
Qed.

(** C2. Let [N >= 2] calls of the runner be made before the completion
    step of the first execution runs: the call that starts it on an idle
    runner, the calls the wrapped function makes from inside that
    execution, and, when the execution returned a promise, the calls that
    arrive before it settles.  Then, the follow-up making no call of its
    own, the wrapped function is executed exactly twice: while the first
    execution is in flight it has been entered once; once the first
    execution has settled (fulfilled or rejected) it has been entered
    twice; and it is not entered again, the runner being idle with nothing
    pending once the follow-up has settled too. *)
Theorem single_flight fuel a (others : list arglist) s1 s2 w :
  isRunning w = false → hasPending w = false → handlers w = ∅ →
  reentrant (fn (S (ncalls w)) a) = [] →
  (deferred (fn (ncalls w) a) = false → others = []) →
  2 ≤ 1 + length (reentrant (fn (ncalls w) a)) + length others →
  (deferred (fn (ncalls w) a) = true →
     called_args (log (fst (exec fn (S (S fuel))
                              (Invoke a :: (Invoke <$> others)) w)))
     = called_args (log w) ++ [a])
  ∧ called_args (log (fst (exec fn (S (S fuel))
                             ((Invoke a :: (Invoke <$> others))
                              ++ [Settle (ncalls w) s1]) w)))
    = called_args (log w) ++ [a; a]
  ∧ snd (exec fn (S (S fuel))
           ((Invoke a :: (Invoke <$> others))
            ++ [Settle (ncalls w) s1; Settle (S (ncalls w)) s2]) w) = true
  ∧ called_args (log (fst (exec fn (S (S fuel))
                             ((Invoke a :: (Invoke <$> others))
                              ++ [Settle (ncalls w) s1; Settle (S (ncalls w)) s2]) w)))
    = called_args (log w) ++ [a; a]
  ∧ isRunning (fst (exec fn (S (S fuel))
                      ((Invoke a :: (Invoke <$> others))
                       ++ [Settle (ncalls w) s1; Settle (S (ncalls w)) s2]) w))
    = false
  ∧ hasPending (fst (exec fn (S (S fuel))
                       ((Invoke a :: (Invoke <$> others))
                        ++ [Settle (ncalls w) s1; Settle (S (ncalls w)) s2]) w))
    = false.
Proof.
  intros Hi Hp Hh Hre2 Hsync HN.
  destruct (first_batch fuel a others w Hi Hp Hh Hre2 Hsync HN) as (Hok & Hst).
  destruct (after_first_settlement fuel a others s1 w Hi Hp Hh Hre2 Hsync HN)
    as (Hok1 & Hst1).
  split; [|split].
  - intros Hd. rewrite Hd in Hst. by destruct Hst as (_ & _ & _ & _ & Hc).
  - by destruct Hst1 as (_ & Hc & _).
  - replace [Settle (ncalls w) s1; Settle (S (ncalls w)) s2]
      with ([Settle (ncalls w) s1] ++ [Settle (S (ncalls w)) s2]) by done.
    rewrite app_assoc, exec_app, Hok1, exec_cons.
    destruct (settle_follow_up (S (S fuel)) a _ _ s2 _ Hst1)
      as (Hok2 & Hi2 & Hp2 & Hc2).
    rewrite Hok2. by cbn [exec fst snd].
Qed.

End Properties.

(** * The runner at work on concrete tasks *)

(** The scenario of the test suite: four calls in a row on an asynchronous
    task, then the two settlements; the task runs twice. *)
Example four_calls_two_runs :
  called_args
    (log (fst (exec async_fn 2
                 [Invoke []; Invoke []; Invoke []; Invoke [];
                  Settle 0 (Fulfilled VUndefined); Settle 1 (Fulfilled VUndefined)]
                 coalesce)))
  = [[]; []].
Proof. reflexivity. Qed.

(** C1 (counterexample). The runner is called with [1] and then, while the
    first execution is in flight, with [2]; once the first execution has
    settled, the follow-up has been run with [1], not with the arguments [2]
    of the call that arrived last. *)
Lemma latest_args_not_replayed :
  called_args
    (log (fst (exec async_fn 2
                 [Invoke one; Invoke two; Settle 0 (Fulfilled VUndefined)]
                 coalesce)))
  = [one; one]
  ∧ last (called_args
            (log (fst (exec async_fn 2
                         [Invoke one; Invoke two; Settle 0 (Fulfilled VUndefined)]
                         coalesce))))
    ≠ Some two.
Proof. split; [reflexivity|]. vm_compute. discriminate. Qed.

(** C4 (counterexample). The task calls the runner and then throws; its
    follow-up returns a promise.  Called on the fresh (idle) runner, the
    runner raises the error while [isRunning] is set: the runner is not idle,
    and the next call does not enter the task (it is coalesced). *)
Lemma sync_throw_leaves_runner_running :
  snd (run reenter_throw_then_async 2 [] coalesce) = Raised boom
  ∧ isRunning (fst (run reenter_throw_then_async 2 [] coalesce)) = true
  ∧ called_args
      (log (fst (run reenter_throw_then_async 2 one
                   (fst (run reenter_throw_then_async 2 [] coalesce)))))
    = called_args (log (fst (run reenter_throw_then_async 2 [] coalesce))).
Proof. repeat split; reflexivity. Qed.

(** C10 (counterexample). Same task: when the error reaches the caller of
    the runner, the follow-up has been entered but has not completed: its
    reaction is still waiting, [isRunning] is set, and the log holds the
    completion step of the first execution only. *)
Lemma follow_up_in_flight_at_rethrow :
  snd (run reenter_throw_then_async 2 [] coalesce) = Raised boom
  ∧ log (fst (run reenter_throw_then_async 2 [] coalesce))
    = [Called [] true false; Completed false true; Called [] true false]
  ∧ handlers (fst (run reenter_throw_then_async 2 [] coalesce)) !! 1 = Some []
  ∧ isRunning (fst (run reenter_throw_then_async 2 [] coalesce)) = true.
Proof. repeat split; reflexivity. Qed.

(** C5 (the code at the failing input). A task returns an object that
    offers a callable [then] and nothing else.  The value passes the
    structural test, yet the completion step is not deferred: no reaction is
    registered, the completion step has run when the call of the runner
    ends, and the caller receives a [TypeError]. *)
Theorem bare_thenable_not_deferred :
  is_thenable bare_thenable = true
  ∧ run bare_fn 1 [] coalesce
    = (World false false 1 ∅ [Called [] true false; Completed false false],
       Raised type_error).
Proof. split; reflexivity. Qed.

(** C3 (the code at the failing input). A task returns a thenable that
    offers [then] only and that rejects later.  The runner never subscribes
    to it: the call of the runner raises a [TypeError] to its caller, the
    completion step has run inside that call, before any settlement, no
    reaction waits, and the rejection, when it comes, triggers nothing. *)
Theorem bare_thenable_rejection_not_awaited :
  is_thenable bare_thenable = true
  ∧ snd (run bare_fn 1 one coalesce) = Raised type_error
  ∧ log (fst (run bare_fn 1 one coalesce))
    = [Called one true false; Completed false false]
  ∧ handlers (fst (run bare_fn 1 one coalesce)) = ∅
  ∧ fst (settle bare_fn 1 0 (Rejected boom) (fst (run bare_fn 1 one coalesce)))
    = fst (run bare_fn 1 one coalesce).
Proof. repeat split; reflexivity. Qed.

(** A thenable whose [catch] returns a plain object: [finally] cannot be
    called on it, the [TypeError] is thrown inside the [try], and the
    completion step runs inside the call. *)
Example catch_without_finally_raises :
  run bad_catch_fn 1 [] coalesce
  = (World false false 1 ∅ [Called [] true false; Completed false false],
     Raised finally_type_error).
Proof. reflexivity. Qed.

(** ** The theorems at concrete inputs *)

Lemma idle_invoke_calls_task_witness :
  isRunning coalesce = false
  ∧ ∃ rest,
      log (fst (run sync_fn 1 one coalesce))
      = log coalesce ++ Called one true (hasPending coalesce) :: rest
      ∧ ncalls coalesce < ncalls (fst (run sync_fn 1 one coalesce)).
Proof.
  split; [reflexivity|].
  apply (idle_invoke_calls_task sync_fn 0 one coalesce). reflexivity.
Defined.

Lemma coalesced_calls_idempotent_witness :
  isRunning (fst (run async_fn 1 one coalesce)) = true
  ∧ fst (exec async_fn 1 (Invoke <$> [two; one; two])
           (fst (run async_fn 1 one coalesce)))
    = fst (run async_fn 1 two (fst (run async_fn 1 one coalesce))).
Proof.
  split; [reflexivity|].
  apply (coalesced_calls_idempotent async_fn 1 [two; one; two] two
           (fst (run async_fn 1 one coalesce))); [reflexivity|simpl; lia].
Defined.

Lemma chain_replays_first_args_witness :
  isRunning coalesce = false ∧ handlers coalesce = ∅
  ∧ ∃ k,
      called_args
        (log (chain async_fn 1
                (Invoke one :: [Invoke two; Settle 0 (Fulfilled VUndefined);
                                Invoke two; Settle 1 (Rejected boom)])
                coalesce))
      = called_args (log coalesce) ++ replicate (S k) one.
Proof.
  split; [reflexivity|]. split; [reflexivity|].
  apply (chain_replays_first_args async_fn 0 one); reflexivity.
Defined.

Lemma rejection_swallowed_witness :
  handlers (fst (exec async_fn 1 [Invoke one; Invoke two] coalesce)) !! 0
  = Some one
  ∧ settle async_fn 1 0 (Rejected boom)
      (fst (exec async_fn 1 [Invoke one; Invoke two] coalesce))
    = settle async_fn 1 0 (Fulfilled VUndefined)
        (fst (exec async_fn 1 [Invoke one; Invoke two] coalesce)).
Proof.
  split; [reflexivity|].
  apply (rejection_swallowed async_fn 0 0 one boom
           (fst (exec async_fn 1 [Invoke one; Invoke two] coalesce))).
  reflexivity.
Defined.

Lemma follow_up_replays_completed_args_witness :
  isRunning (fst (run async_fn 1 one coalesce)) = true
  ∧ handlers (fst (run async_fn 1 one coalesce)) !! 0 = Some one
  ∧ ∃ rest,
      log (fst (exec async_fn 1
                  ((Invoke <$> [two]) ++ [Settle 0 (Rejected boom)])
                  (fst (run async_fn 1 one coalesce))))
      = log (fst (run async_fn 1 one coalesce))
        ++ Completed false true :: Called one true false :: rest.
Proof.
  split; [reflexivity|]. split; [reflexivity|].
  apply (follow_up_replays_completed_args async_fn 0 0 one [two] (Rejected boom)
           (fst (run async_fn 1 one coalesce))); [reflexivity|reflexivity|simpl; lia].
Defined.

Lemma sync_throw_without_reentry_resets_witness :
  isRunning coalesce = false ∧ hasPending coalesce = false
  ∧ reentrant (throwing_fn (ncalls coalesce) one) = []
  ∧ ending (throwing_fn (ncalls coalesce) one) = Throw boom
  ∧ snd (run throwing_fn 1 one coalesce) = Raised boom
  ∧ isRunning (fst (run throwing_fn 1 one coalesce)) = false
  ∧ hasPending (fst (run throwing_fn 1 one coalesce)) = false.
Proof.
  do 4 (split; [reflexivity|]).
  destruct (sync_throw_without_reentry_resets throwing_fn 0 one two boom coalesce
              eq_refl eq_refl eq_refl eq_refl) as (H1 & H2 & H3 & _).
  exact (conj H1 (conj H2 H3)).
Defined.

Lemma sync_throw_completes_before_rethrow_witness :
  isRunning coalesce = false ∧ hasPending coalesce = false
  ∧ ending (reenter_throw_then_sync (ncalls coalesce) []) = Throw boom
  ∧ ∃ rest,
      log (fst (run reenter_throw_then_sync 2 [] coalesce))
      = log coalesce ++ Called [] true false :: Completed false true
                     :: Called [] true false :: rest.
Proof.
  do 3 (split; [reflexivity|]).
  destruct (sync_throw_completes_before_rethrow reenter_throw_then_sync 0 [] boom
              VUndefined coalesce eq_refl eq_refl eq_refl) as (_ & H & _).
  apply H. discriminate.
Defined.

Lemma single_flight_witness :
  isRunning coalesce = false ∧ hasPending coalesce = false
  ∧ handlers coalesce = ∅
  ∧ reentrant (async_fn (S (ncalls coalesce)) []) = []
  ∧ 2 ≤ 1 + length (reentrant (async_fn (ncalls coalesce) [])) + length [[]; []; [] : arglist]
  ∧ called_args
      (log (fst (exec async_fn 2
                   ((Invoke [] :: (Invoke <$> [[]; []; []]))
                    ++ [Settle (ncalls coalesce) (Fulfilled VUndefined)])
                   coalesce)))
    = called_args (log coalesce) ++ [[]; []].
Proof.
  do 4 (split; [reflexivity|]). split; [simpl; lia|].
  apply (single_flight async_fn 0 [] [[]; []; []]
           (Fulfilled VUndefined) (Fulfilled VUndefined) coalesce);
    try reflexivity; [discriminate|simpl; lia].
Defined.


(** * Further properties of the runner *)

Section MoreProperties.

Variable fn : nat → arglist → behaviour.

(** ** One execution at a time *)

Lemma alternates_app b l1 l2 :
  alternates b (l1 ++ l2)
  = alternates b l1 && alternates (in_flight_after b l1) l2.
Proof.
  revert b. induction l1 as [|[a r p|r p] l1 IH]; intros b; simpl; [done| |].
  - by rewrite IH, andb_assoc.
  - by rewrite IH, andb_assoc.
Qed.

Lemma in_flight_after_app b l1 l2 :
  in_flight_after b (l1 ++ l2) = in_flight_after (in_flight_after b l1) l2.
Proof.
  revert b. induction l1 as [|[a r p|r p] l1 IH]; intros b; simpl; done.
Qed.

(** What one call of [run] adds to the log keeps the alternation. *)
Lemma run_alternates fuel args w :
  ∃ l, log (fst (run fn fuel args w)) = log w ++ l
       ∧ alternates (isRunning w) l = true
       ∧ in_flight_after (isRunning w) l = isRunning (fst (run fn fuel args w)).
Proof.
  revert fuel args w.
  apply (run_cases fn (λ _ _ w r,
    ∃ l, log (fst r) = log w ++ l
         ∧ alternates (isRunning w) l = true
         ∧ in_flight_after (isRunning w) l = isRunning (fst r))).
  - intros _ _ w _. exists []. simpl. by rewrite app_nil_r.
  - intros _ w _. exists []. simpl. by rewrite app_nil_r.
  - intros _ args w Hi _. eexists. simpl. rewrite after_body_log.
    split; [done|]. simpl. by rewrite Hi, after_body_isRunning.
  - intros _ args w Hi _ _. eexists. rewrite fst_finish. simpl.
    rewrite after_body_log, <- app_assoc. split; [done|]. simpl. by rewrite Hi.
  - intros _ args w r Hi _ _ _ (l & Hl & Ha & Hf). eexists.
    rewrite fst_finish, Hl. simpl.
    rewrite after_body_log, <- !app_assoc. split; [done|].
    simpl in *. by rewrite Hi.
Qed.

Lemma complete_alternates fuel args w :
  isRunning w = true →
  ∃ l, log (fst (complete fn fuel args w)) = log w ++ l
       ∧ alternates true l = true
       ∧ in_flight_after true l = isRunning (fst (complete fn fuel args w)).
Proof.
  intros Hr. rewrite complete_eq. destruct (hasPending w) eqn:Hp.
  - destruct (run_alternates fuel args (set_hasPending false (completed w)))
      as (l & Hl & Ha & Hf).
    eexists. rewrite Hl. simpl. rewrite <- app_assoc. split; [done|].
    simpl in *. done.
  - eexists. simpl. split; [done|]. done.
Qed.

(** The reactions that wait: none, or that of the execution in flight. *)
Lemma step_handlers fuel ev w :
  (∃ args, chain_inv args w) →
  ∃ args, chain_inv args (fst (step fn fuel ev w)).
Proof.
  intros [args Hinv]. destruct ev as [args'|idx s].
  - rewrite step_invoke. cbn [fst]. destruct (isRunning w) eqn:Hr.
    + rewrite run_running by done. by exists args.
    + assert (handlers w = ∅) as Hh by (destruct Hinv as [|[? _]]; congruence).
      destruct (run_chain fn fuel args' w Hh) as (_ & _ & Hc). by exists args'.
  - cbn [step].
    destruct (settle_chain fn fuel args idx s w Hinv) as (_ & _ & Hc).
    exists args. by destruct (settle fn fuel idx s w) as [w' [s'|]].
Qed.

Lemma step_alternates fuel ev w :
  (∃ args, chain_inv args w) →
  ∃ l, log (fst (step fn fuel ev w)) = log w ++ l
       ∧ alternates (isRunning w) l = true
       ∧ in_flight_after (isRunning w) l = isRunning (fst (step fn fuel ev w)).
Proof.
  intros [args Hinv]. destruct ev as [args'|idx s].
  - rewrite step_invoke. cbn [fst]. apply run_alternates.
  - cbn [step]. destruct (handlers w !! idx) as [a|] eqn:Hh.
    + assert (isRunning w = true) as Hr.
      { destruct Hinv as [He|[Hr _]]; [|done].
        rewrite He, lookup_empty in Hh. done. }
      rewrite Hr.
      destruct (complete_alternates fuel a (unregister idx w) Hr)
        as (l & Hl & Ha & Hf).
      exists l. rewrite (settle_registered fn _ _ _ s _ Hh).
      by destruct (complete fn fuel a (unregister idx w)) as [w' [|e|]].
    + unfold settle. rewrite Hh. exists []. simpl. by rewrite app_nil_r.
Qed.

Lemma exec_alternates fuel evs w :
  (∃ args, chain_inv args w) →
  alternates false (log w) = true →
  in_flight_after false (log w) = isRunning w →
  let w' := fst (exec fn fuel evs w) in
  (∃ args, chain_inv args w')
  ∧ alternates false (log w') = true
  ∧ in_flight_after false (log w') = isRunning w'.
Proof.
  revert w. induction evs as [|ev evs IH]; intros w Hinv Ha Hf; [done|].
  rewrite exec_cons.
  pose proof (step_handlers fuel ev w Hinv) as Hinv'.
  destruct (step_alternates fuel ev w Hinv) as (l & Hl & Ha' & Hf').
  assert (alternates false (log (fst (step fn fuel ev w))) = true) as Ha''.
  { by rewrite Hl, alternates_app, Ha, Hf, Ha'. }
  assert (in_flight_after false (log (fst (step fn fuel ev w)))
          = isRunning (fst (step fn fuel ev w))) as Hf''.
  { by rewrite Hl, in_flight_after_app, Hf. }
  destruct (snd (step fn fuel ev w)); [by apply IH|done].
Qed.

(** X1. At most one execution of the wrapped function is in flight, in
    every run from the fresh state: in the log, entries of the wrapped
    function and completion steps alternate, starting with an entry, so the
    wrapped function is never entered before the completion step of the
    previous execution; [isRunning] tells whether the last entry is still
    without its completion step; and at most one reaction waits for a
    settlement, only while [isRunning] is set. *)
Theorem one_execution_at_a_time fuel evs :
  alternates false (log (fst (exec fn fuel evs coalesce))) = true
  ∧ in_flight_after false (log (fst (exec fn fuel evs coalesce)))
    = isRunning (fst (exec fn fuel evs coalesce))
  ∧ size (handlers (fst (exec fn fuel evs coalesce))) ≤ 1
  ∧ (handlers (fst (exec fn fuel evs coalesce)) ≠ ∅ →
     isRunning (fst (exec fn fuel evs coalesce)) = true).
Proof.
  destruct (exec_alternates fuel evs coalesce) as ([args Hinv] & Ha & Hf);
    [exists []; by left|done|done|].
  split; [done|]. split; [done|].
  destruct Hinv as [He|[Hr [idx Hs]]].
  - rewrite He, map_size_empty. split; [lia|done].
  - rewrite Hs, map_size_singleton. split; [lia|done].
Qed.

(** ** Tasks that do not call the runner themselves *)

(** One execution started on an idle runner with nothing pending. *)
Lemma run_once fuel a w :
  isRunning w = false → hasPending w = false →
  reentrant (fn (ncalls w) a) = [] →
  is_out (snd (run fn (S fuel) a w)) = false
  ∧ called_args (log (fst (run fn (S fuel) a w))) = called_args (log w) ++ [a]
  ∧ hasPending (fst (run fn (S fuel) a w)) = false
  ∧ ncalls (fst (run fn (S fuel) a w)) = S (ncalls w)
  ∧ if deferred (fn (ncalls w) a)
    then isRunning (fst (run fn (S fuel) a w)) = true
         ∧ handlers (fst (run fn (S fuel) a w)) = <[ncalls w := a]> (handlers w)
    else isRunning (fst (run fn (S fuel) a w)) = false
         ∧ handlers (fst (run fn (S fuel) a w)) = handlers w.
Proof.
  intros Hi Hp Hre. destruct (deferred (fn (ncalls w) a)) eqn:Hd.
  - rewrite run_idle, Hd by done. simpl.
    rewrite after_body_hasPending, after_body_log, after_body_isRunning,
      after_body_handlers, after_body_ncalls, called_args_app, Hre, Hp.
    done.
  - rewrite run_sync_no_reentry by done.
    rewrite snd_finish_out, fst_finish. simpl.
    rewrite after_body_hasPending, after_body_log, after_body_handlers,
      after_body_ncalls, !called_args_app, Hre, Hp.
    simpl. by rewrite app_nil_r.
Qed.

(** X2. A call that nothing overtakes runs the wrapped function once: on an
    idle runner, when the wrapped function makes no call of its own, the
    call followed by the settlement of its execution (which changes nothing
    when the execution ended inside the call) enters the wrapped function
    exactly once, and leaves the runner idle with nothing pending and no
    reaction waiting; no follow-up occurs. *)
Theorem lone_call_runs_once fuel a s w :
  isRunning w = false → hasPending w = false → handlers w = ∅ →
  reentrant (fn (ncalls w) a) = [] →
  snd (exec fn (S fuel) [Invoke a; Settle (ncalls w) s] w) = true
  ∧ called_args (log (fst (exec fn (S fuel) [Invoke a; Settle (ncalls w) s] w)))
    = called_args (log w) ++ [a]
  ∧ isRunning (fst (exec fn (S fuel) [Invoke a; Settle (ncalls w) s] w)) = false
  ∧ hasPending (fst (exec fn (S fuel) [Invoke a; Settle (ncalls w) s] w)) = false
  ∧ handlers (fst (exec fn (S fuel) [Invoke a; Settle (ncalls w) s] w)) = ∅.
Proof.
  intros Hi Hp Hh Hre.
  destruct (run_once fuel a w Hi Hp Hre) as (Hout & Hc & Hp' & Hn & Hd).
  rewrite exec_cons, step_invoke. cbn [fst snd]. rewrite Hout. cbn [negb].
  set (w1 := fst (run fn (S fuel) a w)) in *. clearbody w1.
  rewrite exec_cons. cbn [step]. unfold settle.
  destruct (deferred (fn (ncalls w) a)); destruct Hd as [Hr' Hh'].
  - rewrite Hh', lookup_insert_eq. unfold on_finally. rewrite complete_eq.
    change (hasPending (unregister (ncalls w) w1)) with (hasPending w1).
    rewrite Hp'. cbn [fst snd exec]. simpl.
    rewrite called_args_app, Hc, Hp', Hh', Hh, app_nil_r.
    repeat (split; [done|]). by rewrite delete_insert_eq, delete_empty.
  - rewrite Hh', Hh, lookup_empty. cbn [fst snd exec].
    by rewrite Hh', Hh.
Qed.

(** X3. For a wrapped function that always ends inside the call (it throws
    or returns a value that is not deferred) and makes no call of its own,
    the runner coalesces nothing: every call made from outside enters the
    wrapped function at once with its own arguments, so [n] calls give [n]
    executions, in order, and the runner is idle after each of them. *)
Theorem synchronous_calls_all_run fuel (calls : list arglist) w :
  (∀ i a, reentrant (fn i a) = [] ∧ deferred (fn i a) = false) →
  isRunning w = false → hasPending w = false →
  snd (exec fn (S fuel) (Invoke <$> calls) w) = true
  ∧ called_args (log (fst (exec fn (S fuel) (Invoke <$> calls) w)))
    = called_args (log w) ++ calls
  ∧ isRunning (fst (exec fn (S fuel) (Invoke <$> calls) w)) = false
  ∧ hasPending (fst (exec fn (S fuel) (Invoke <$> calls) w)) = false.
Proof.
  intros Hfn. revert w. induction calls as [|a calls IH]; intros w Hi Hp.
  - cbn [fmap list_fmap exec fst snd]. by rewrite app_nil_r.
  - destruct (Hfn (ncalls w) a) as [Hre Hd].
    destruct (run_once fuel a w Hi Hp Hre) as (Hout & Hc & Hp' & _ & Hrun).
    rewrite Hd in Hrun. destruct Hrun as [Hi' _].
    rewrite fmap_cons, exec_cons, step_invoke. cbn [fst snd].
    rewrite Hout. cbn [negb].
    destruct (IH _ Hi' Hp') as (Hok & Hcs & Hi'' & Hp'').
    rewrite Hcs, Hc, <- app_assoc. done.
Qed.

(** One event on a runner whose wrapped function makes no call of its own:
    it is processed within a nesting depth of one, and the executions plus
    the pending call grow by at most the call the event brings. *)
Lemma step_accounted fuel ev w :
  (∀ i a, reentrant (fn i a) = []) →
  quiet w →
  snd (step fn (S fuel) ev w) = true
  ∧ quiet (fst (step fn (S fuel) ev w))
  ∧ length (called_args (log (fst (step fn (S fuel) ev w))))
    + pending_count (fst (step fn (S fuel) ev w))
    ≤ length (called_args (log w)) + pending_count w + invokes [ev].
Proof.
  intros Hfn Hq. unfold pending_count. destruct ev as [a|idx s].
  - rewrite step_invoke. cbn [fst snd invokes].
    destruct (isRunning w) eqn:Hr.
    + rewrite run_running by done. simpl. split; [done|].
      split; [by intros _|]. destruct (hasPending w); lia.
    + assert (hasPending w = false) as Hp.
      { destruct (hasPending w) eqn:Hp; [|done]. rewrite Hq in Hr; done. }
      destruct (run_once fuel a w Hr Hp (Hfn _ _)) as (Hout & Hc & Hp' & _ & _).
      set (r := run fn (S fuel) a w) in *. clearbody r.
      rewrite Hout, Hc, Hp', Hp, length_app. simpl.
      split; [done|]. split; [|lia]. unfold quiet. congruence.
  - cbn [step invokes]. unfold settle.
    destruct (handlers w !! idx) as [a|] eqn:Hh; [|simpl; split; [done|]; split; [done|lia]].
    unfold on_finally. rewrite complete_eq.
    change (hasPending (unregister idx w)) with (hasPending w).
    destruct (hasPending w) eqn:Hp.
    + destruct (run_once fuel a (set_hasPending false (completed (unregister idx w)))
                  eq_refl eq_refl (Hfn _ _)) as (Hout & Hc & Hp' & _ & _).
      destruct (run fn (S fuel) a _) as [w' [|e|]]; simpl in *; try done;
        rewrite Hc, Hp', called_args_app, !length_app; simpl;
        (split; [done|]); (split; [unfold quiet; simpl; congruence|lia]).
    + simpl. rewrite Hp, called_args_app, length_app. simpl.
      split; [done|]. split; [unfold quiet; simpl; congruence|lia].
Qed.

(** X4. A wrapped function that makes no call of its own is never executed
    more often than the runner was called: after any sequence of calls and
    settlements on a fresh runner, the number of executions, plus one if a
    call is still pending, is at most the number of calls.  Every event is
    processed within a nesting depth of one. *)
Theorem executions_bounded_by_calls fuel evs :
  (∀ i a, reentrant (fn i a) = []) →
  snd (exec fn (S fuel) evs coalesce) = true
  ∧ length (called_args (log (fst (exec fn (S fuel) evs coalesce))))
    + pending_count (fst (exec fn (S fuel) evs coalesce))
    ≤ invokes evs.
Proof.
  intros Hfn.
  assert (∀ evs w, quiet w →
            snd (exec fn (S fuel) evs w) = true
            ∧ length (called_args (log (fst (exec fn (S fuel) evs w))))
              + pending_count (fst (exec fn (S fuel) evs w))
              ≤ length (called_args (log w)) + pending_count w + invokes evs)
    as Hgen.
  { clear evs. induction evs as [|ev evs IH]; intros w Hq.
    - simpl. split; [done|lia].
    - destruct (step_accounted fuel ev w Hfn Hq) as (Hok & Hq' & Hle).
      rewrite exec_cons, Hok.
      destruct (IH _ Hq') as (Hok' & Hle'). split; [done|].
      assert (invokes (ev :: evs) = invokes [ev] + invokes evs) as ->
        by (destruct ev; simpl; lia).
      lia. }
  destruct (Hgen evs coalesce) as (Hok & Hle); [unfold quiet; done|].
  split; [done|]. simpl in Hle. lia.
Qed.

(** ** Where the errors of the runner come from *)

Lemma run_raised fuel args e w :
  snd (run fn fuel args w) = Raised e →
  ∃ i, ncalls w ≤ i < ncalls (fst (run fn fuel args w))
       ∧ deferred (fn i args) = false
       ∧ sync_error (fn i args) = Some e.
Proof.
  revert e. revert fuel args w.
  apply (run_cases fn (λ _ args w r, ∀ e,
    snd r = Raised e →
    ∃ i, ncalls w ≤ i < ncalls (fst r)
         ∧ deferred (fn i args) = false
         ∧ sync_error (fn i args) = Some e)).
  - intros _ args w _ e He. done.
  - intros args w _ e He. done.
  - intros _ args w _ _ e He. done.
  - intros _ args w _ Hd _ e He. exists (ncalls w).
    rewrite fst_finish. simpl. rewrite after_body_ncalls.
    destruct (sync_error (fn (ncalls w) args)) as [e'|]; simpl in He; [|done].
    split; [lia|]. split; [done|]. congruence.
  - intros fuel args w r _ Hd _ Hr IH e He. rewrite fst_finish.
    assert (S (ncalls w) ≤ ncalls (fst r)) as Hn.
    { rewrite Hr.
      destruct (run_extends fn fuel args
                  (set_hasPending false (completed (after_body fn args w))))
        as (_ & _ & Hn).
      simpl in Hn. by rewrite after_body_ncalls in Hn. }
    destruct r as [w' [|e'|]].
    + exists (ncalls w). simpl in *.
      destruct (sync_error (fn (ncalls w) args)) as [e''|]; simpl in He; [|done].
      split; [lia|]. split; [done|]. congruence.
    + destruct (IH e') as (i & Hi & Hdi & Hei); [done|].
      exists i. simpl in Hi. rewrite after_body_ncalls in Hi.
      assert (e = e') as ->.
      { destruct (sync_error (fn (ncalls w) args)); simpl in He; congruence. }
      simpl in *. split; [lia|done].
    + destruct (sync_error (fn (ncalls w) args)); simpl in He; done.
Qed.

(** X5. An error that a call of the runner raises (within the bound on
    nested calls) is always the error of an execution made within that
    call, with the arguments of that call, whose completion was not
    deferred: the wrapped function threw it, or the code of the value it
    returned threw it while the value was inspected and subscribed to, or
    the value is a thenable without a callable [catch] and the error is the
    [TypeError].  The runner raises nothing of its own. *)
Theorem raised_error_comes_from_an_execution fuel args e w :
  snd (run fn fuel args w) = Raised e →
  ∃ i, ncalls w ≤ i < ncalls (fst (run fn fuel args w))
       ∧ deferred (fn i args) = false
       ∧ sync_error (fn i args) = Some e.
Proof. apply run_raised. Qed.

(** X6. If the wrapped function never calls the runner itself and none of
    its executions ends with an error (it never throws, and every value it
    returns is either no thenable or a thenable with a callable [catch], in
    both cases inspected and subscribed to without an error), every call of
    the runner made between two events returns normally. *)
Theorem runner_never_raises fuel args w :
  (∀ i a, reentrant (fn i a) = []) →
  (∀ i a, deferred (fn i a) = false → sync_error (fn i a) = None) →
  quiet w →
  snd (run fn (S fuel) args w) = Returned.
Proof.
  intros Hre Hfn Hq. destruct (isRunning w) eqn:Hr.
  - by rewrite run_running.
  - assert (hasPending w = false) as Hp.
    { destruct (hasPending w) eqn:Hp; [|done]. rewrite Hq in Hr; done. }
    rewrite run_idle by done.
    destruct (deferred (fn (ncalls w) args)) eqn:Hd; [done|].
    rewrite (Hfn _ _ Hd), complete_eq, after_body_hasPending, Hre, Hp. done.
Qed.

(** ** The structural test and the deferred path *)

Lemma typeof_function v :
  String.eqb (typeof v) "function" = true ↔ ∃ props, v = VObject true props.
Proof.
  destruct v as [| | | | |[|] props]; simpl; split; try done;
    try (by intros [? ?]); eauto.
Qed.

(** X7. A value passes the structural test of lines 62-65 exactly when it is
    an object or a function whose member [then] is a function.  [null] and
    the primitive values never pass, and neither does an object whose [then]
    is missing or is not callable. *)
Theorem is_thenable_iff v :
  is_thenable v = true
  ↔ ∃ callable props then_props,
      v = VObject callable props
      ∧ lookup_prop "then" props = VObject true then_props.
Proof.
  unfold is_thenable. split.
  - intros H. apply andb_prop in H as [H Hthen].
    apply typeof_function in Hthen as [tp Hthen].
    destruct v as [| | | | |c props]; simpl in *; try done. eauto.
  - intros (c & props & tp & -> & Hthen). simpl. rewrite Hthen.
    by destruct c.
Qed.


(** ** Errors of a follow-up *)

(** X9. A follow-up that a settlement starts and that throws synchronously
    without having called the runner: the error has no caller to go to; the promise derived by
    [.catch(...).finally(complete)] is rejected with it, whatever the
    settlement was (the empty [catch] handler sits before [finally], so it
    does not cover [complete]).  The runner is idle again. *)
Theorem follow_up_throw_rejects_derived_promise fuel idx args e s w :
  handlers w !! idx = Some args → hasPending w = true →
  reentrant (fn (ncalls w) args) = [] →
  ending (fn (ncalls w) args) = Throw e →
  snd (settle fn (S fuel) idx s w) = Some (Rejected e)
  ∧ isRunning (fst (settle fn (S fuel) idx s w)) = false
  ∧ hasPending (fst (settle fn (S fuel) idx s w)) = false
  ∧ called_args (log (fst (settle fn (S fuel) idx s w)))
    = called_args (log w) ++ [args].
Proof.
  intros Hh Hp Hre He.
  rewrite (settle_registered fn _ _ _ s _ Hh), complete_eq.
  change (hasPending (unregister idx w)) with (hasPending w). rewrite Hp.
  rewrite run_sync_no_reentry; try done; [|by apply (deferred_throw _ e)].
  change (ncalls (set_hasPending false (completed (unregister idx w))))
    with (ncalls w).
  rewrite (sync_error_throw _ _ He). simpl.
  rewrite after_body_hasPending, after_body_log. simpl.
  rewrite Hre, !called_args_app. simpl. by rewrite !app_nil_r.
Qed.

(** X10. When the wrapped function calls the runner and then throws, and
    the follow-up that the [catch] block starts throws as well, without
    having called the runner itself, the caller of the runner receives the
    error of the follow-up: [complete()] throws
    before [throw error] is reached, and the first error is lost.  The
    runner is idle afterwards. *)
Theorem follow_up_error_replaces_first fuel args e1 e2 w :
  isRunning w = false →
  reentrant (fn (ncalls w) args) ≠ [] →
  ending (fn (ncalls w) args) = Throw e1 →
  reentrant (fn (S (ncalls w)) args) = [] →
  ending (fn (S (ncalls w)) args) = Throw e2 →
  snd (run fn (S (S fuel)) args w) = Raised e2
  ∧ isRunning (fst (run fn (S (S fuel)) args w)) = false
  ∧ hasPending (fst (run fn (S (S fuel)) args w)) = false
  ∧ called_args (log (fst (run fn (S (S fuel)) args w)))
    = called_args (log w) ++ [args; args].
Proof.
  intros Hi Hre1 He1 Hre2 He2.
  rewrite run_sync_reentry; try done; [|by apply (deferred_throw _ e1)].
  rewrite (sync_error_throw _ _ He1).
  rewrite run_sync_no_reentry; try done;
    change (ncalls (set_hasPending false (completed (after_body fn args w))))
      with (ncalls (after_body fn args w));
    rewrite ?after_body_ncalls; try done; [|by apply (deferred_throw _ e2)].
  rewrite (sync_error_throw _ _ He2). simpl.
  rewrite after_body_hasPending. simpl. rewrite after_body_ncalls, Hre2.
  rewrite after_body_log. simpl. rewrite after_body_log, !called_args_app.
  simpl. by rewrite !app_nil_r, <- app_assoc.
Qed.

End MoreProperties.

(** ** The further properties at concrete inputs *)

Lemma lone_call_runs_once_witness :
  isRunning coalesce = false ∧ hasPending coalesce = false
  ∧ handlers coalesce = ∅
  ∧ reentrant (async_fn (ncalls coalesce) one) = []
  ∧ called_args
      (log (fst (exec async_fn 1
                   [Invoke one; Settle (ncalls coalesce) (Rejected boom)]
                   coalesce)))
    = called_args (log coalesce) ++ [one].
Proof.
  do 4 (split; [reflexivity|]).
  apply (lone_call_runs_once async_fn 0 one (Rejected boom) coalesce);
    reflexivity.
Defined.

Lemma synchronous_calls_all_run_witness :
  (∀ i a, reentrant (throwing_fn i a) = [] ∧ deferred (throwing_fn i a) = false)
  ∧ isRunning coalesce = false ∧ hasPending coalesce = false
  ∧ called_args
      (log (fst (exec throwing_fn 1 (Invoke <$> [one; two; one]) coalesce)))
    = called_args (log coalesce) ++ [one; two; one].
Proof.
  split; [intros i a; split; reflexivity|]. do 2 (split; [reflexivity|]).
  apply (synchronous_calls_all_run throwing_fn 0 [one; two; one] coalesce);
    [intros i a; split; reflexivity|reflexivity|reflexivity].
Defined.

Lemma executions_bounded_by_calls_witness :
  (∀ i a, reentrant (async_fn i a) = [])
  ∧ length (called_args
              (log (fst (exec async_fn 1
                           [Invoke one; Invoke two; Invoke one;
                            Settle 0 (Fulfilled VUndefined); Invoke two]
                           coalesce))))
    + pending_count
        (fst (exec async_fn 1
                [Invoke one; Invoke two; Invoke one;
                 Settle 0 (Fulfilled VUndefined); Invoke two]
                coalesce))
    ≤ invokes [Invoke one; Invoke two; Invoke one;
               Settle 0 (Fulfilled VUndefined); Invoke two].
Proof.
  split; [intros i a; reflexivity|].
  apply (executions_bounded_by_calls async_fn 0). intros i a; reflexivity.
Defined.

Lemma raised_error_comes_from_an_execution_witness :
  snd (run reenter_throw_then_throw 2 one coalesce) = Raised bang
  ∧ ∃ i, ncalls coalesce ≤ i < ncalls (fst (run reenter_throw_then_throw 2 one coalesce))
         ∧ deferred (reenter_throw_then_throw i one) = false
         ∧ sync_error (reenter_throw_then_throw i one) = Some bang.
Proof.
  split; [reflexivity|].
  apply (raised_error_comes_from_an_execution reenter_throw_then_throw 2 one
           bang coalesce).
  reflexivity.
Defined.

Lemma runner_never_raises_witness :
  (∀ i a, reentrant (async_fn i a) = [])
  ∧ (∀ i a, deferred (async_fn i a) = false → sync_error (async_fn i a) = None)
  ∧ quiet coalesce
  ∧ snd (run async_fn 1 one coalesce) = Returned.
Proof.
  split; [intros i a; reflexivity|].
  split; [intros i a H; discriminate H|].
  split; [intros H; discriminate H|].
  apply (runner_never_raises async_fn 0 one coalesce);
    [intros i a; reflexivity|intros i a H; discriminate H|intros H; discriminate H].
Defined.


Lemma follow_up_throw_rejects_derived_promise_witness :
  handlers (fst (exec async_then_throw 1 [Invoke one; Invoke two] coalesce)) !! 0
  = Some one
  ∧ hasPending (fst (exec async_then_throw 1 [Invoke one; Invoke two] coalesce))
    = true
  ∧ snd (settle async_then_throw 1 0 (Fulfilled VUndefined)
           (fst (exec async_then_throw 1 [Invoke one; Invoke two] coalesce)))
    = Some (Rejected bang).
Proof.
  do 2 (split; [reflexivity|]).
  apply (follow_up_throw_rejects_derived_promise async_then_throw 0 0 one bang
           (Fulfilled VUndefined)
           (fst (exec async_then_throw 1 [Invoke one; Invoke two] coalesce)));
    reflexivity.
Defined.

Lemma follow_up_error_replaces_first_witness :
  isRunning coalesce = false
  ∧ reentrant (reenter_throw_then_throw (ncalls coalesce) one) ≠ []
  ∧ ending (reenter_throw_then_throw (ncalls coalesce) one) = Throw boom
  ∧ ending (reenter_throw_then_throw (S (ncalls coalesce)) one) = Throw bang
  ∧ snd (run reenter_throw_then_throw 2 one coalesce) = Raised bang.
Proof.
  split; [reflexivity|]. split; [discriminate|]. do 2 (split; [reflexivity|]).
  apply (follow_up_error_replaces_first reenter_throw_then_throw 0 one boom bang
           coalesce); try reflexivity. discriminate.
Defined.

(** ** No call is lost *)

Section NoCallLost.

Variable fn : nat → arglist → behaviour.

Lemma exec_calls_grow fuel evs w :
  quiet w →
  length (called_args (log w))
  ≤ length (called_args (log (fst (exec fn fuel evs w)))).
Proof.
  revert w. induction evs as [|ev evs IH]; intros w Hq; [done|].
  rewrite exec_cons.
  destruct (step_observations fn fuel ev w Hq) as (Hq' & l & Hl & _).
  assert (length (called_args (log w))
          ≤ length (called_args (log (fst (step fn fuel ev w))))) as Hle.
  { rewrite Hl, called_args_app, length_app. lia. }
  destruct (snd (step fn fuel ev w)); [|done].
  specialize (IH _ Hq'). lia.
Qed.

Lemma fst_step_settle fuel idx s w :
  fst (step fn fuel (Settle idx s) w) = fst (settle fn fuel idx s w).
Proof. cbn [step]. by destruct (settle fn fuel idx s w) as [w' [s'|]]. Qed.

(** A pending call stays pending until the completion step that serves it
    enters the wrapped function. *)
Lemma step_pending_served fuel ev w :
  quiet w → hasPending w = true →
  (hasPending (fst (step fn (S fuel) ev w)) = true
   ∧ snd (step fn (S fuel) ev w) = true)
  ∨ length (called_args (log w))
    < length (called_args (log (fst (step fn (S fuel) ev w)))).
Proof.
  intros Hq Hp. pose proof (Hq Hp) as Hr. destruct ev as [a|idx s].
  - left. rewrite step_invoke, run_running by done. done.
  - destruct (handlers w !! idx) as [a|] eqn:Hh.
    + right. rewrite fst_step_settle.
      rewrite (fst_settle_registered fn _ _ _ s _ Hh), complete_eq.
      change (hasPending (unregister idx w)) with (hasPending w). rewrite Hp.
      destruct (run_idle_log fn fuel a
                  (set_hasPending false (completed (unregister idx w))) eq_refl)
        as (l & Hl).
      rewrite Hl. simpl. rewrite !called_args_app, !length_app. simpl. lia.
    + left. cbn [step]. unfold settle. rewrite Hh. done.
Qed.

Lemma exec_pending_served fuel evs w :
  quiet w → hasPending w = true →
  hasPending (fst (exec fn (S fuel) evs w)) = true
  ∨ length (called_args (log w))
    < length (called_args (log (fst (exec fn (S fuel) evs w)))).
Proof.
  revert w. induction evs as [|ev evs IH]; intros w Hq Hp; [by left|].
  rewrite exec_cons.
  destruct (step_observations fn (S fuel) ev w Hq) as (Hq' & _).
  destruct (step_pending_served fuel ev w Hq Hp) as [[Hp' Hok]|Hlt].
  - rewrite Hok. destruct (IH _ Hq' Hp') as [H|H]; [by left|right].
    destruct (step_observations fn (S fuel) ev w Hq) as (_ & l & Hl & _).
    rewrite Hl, called_args_app, length_app in H. lia.
  - right. destruct (snd (step fn (S fuel) ev w)); [|done].
    pose proof (exec_calls_grow (S fuel) evs _ Hq'). lia.
Qed.

(** X11. No call of the runner is lost: whatever the wrapped function does
    and whatever calls and settlements follow, at any later point the call
    is still recorded in [hasPending], or the wrapped function has been
    entered since the call was made. *)
Theorem no_call_is_lost fuel a evs w :
  quiet w →
  hasPending (fst (exec fn (S fuel) (Invoke a :: evs) w)) = true
  ∨ length (called_args (log w))
    < length (called_args (log (fst (exec fn (S fuel) (Invoke a :: evs) w)))).
Proof.
  intros Hq. rewrite exec_cons, step_invoke. cbn [fst snd].
  pose proof (run_quiet fn (S fuel) a w Hq) as Hq'.
  destruct (isRunning w) eqn:Hr.
  - rewrite run_running by done. cbn [fst snd is_out negb].
    rewrite run_running in Hq' by done.
    destruct (exec_pending_served fuel evs (set_hasPending true w) Hq' eq_refl)
      as [H|H]; [by left|by right].
  - right. destruct (run_idle_log fn fuel a w Hr) as (l & Hl).
    assert (length (called_args (log w))
            < length (called_args (log (fst (run fn (S fuel) a w))))) as Hlt.
    { rewrite Hl, called_args_app, length_app. simpl. lia. }
    destruct (negb (is_out (snd (run fn (S fuel) a w)))); [|done].
    pose proof (exec_calls_grow (S fuel) evs _ Hq'). lia.
Qed.

End NoCallLost.

Lemma no_call_is_lost_witness :
  quiet (fst (run async_fn 1 one coalesce))
  ∧ (hasPending
       (fst (exec async_fn 1
               (Invoke two :: [Settle 0 (Rejected boom); Settle 1 (Fulfilled VUndefined)])
               (fst (run async_fn 1 one coalesce))))
     = true
     ∨ length (called_args (log (fst (run async_fn 1 one coalesce))))
       < length
           (called_args
              (log (fst (exec async_fn 1
                           (Invoke two :: [Settle 0 (Rejected boom);
                                           Settle 1 (Fulfilled VUndefined)])
                           (fst (run async_fn 1 one coalesce))))))).
Proof.
  split; [intros _; reflexivity|].
  apply (no_call_is_lost async_fn 0 two
           [Settle 0 (Rejected boom); Settle 1 (Fulfilled VUndefined)]
           (fst (run async_fn 1 one coalesce))).
  intros _. reflexivity.
Defined.
